(** * TaskFlow API: the rate-limit guard and the cache service

    A shallow embedding of
      - [src/common/guards/rate-limit.guard.ts]   (module [RateLimit])
      - [src/common/services/cache.service.ts]    (module [Cache])
      - the helpers of [src/common/interceptors/logging.interceptor.ts]
        (module [Logging]) and the exception filter (module [Filter])
    together with the behaviour of the two external stores the code talks
    to (the Redis server behind ioredis, and the cache-manager [Cache]
    handle), written as small executable models.

    Conventions.
      - The limits, window lengths, times to live and times the code is
        given are integers of [Z].  What it reads back through [parseInt]
        is a [number]: an integer that a double holds, [NaN] or an
        infinity.
      - A promise that rejects and a [throw] are both an [outcome] [Throw];
        [await] is sequencing.  Every store call takes the wall-clock time
        [now] (milliseconds) of the request that issues it.
      - A store call can fail: the [fault] it raises is chosen by the caller
        of the model (a connection error, a timeout, ...). *)

From Stdlib Require Import ZArith String Ascii List Lia Bool.
From Stdlib Require Import DecimalString.
From Stdlib Require DecimalZ DecimalPos.
From stdpp Require Import base option list gmap strings.

Local Open Scope string_scope.
Local Open Scope list_scope.
Local Open Scope Z_scope.

(** ** Shared vocabulary *)

(** What a store client can throw: an instance of [Error] (with its
    [message] and [stack]) or some other thrown value.  Neither is an
    instance of Nest's [HttpException]. *)
Inductive fault :=
  | ErrorObj (message : string) (stack : option string)
  | NonError.

(** [error instanceof Error ? error.message : 'Unknown error'] *)
Definition errorMessage (e : fault) : string :=
  match e with
  | ErrorObj m _ => m
  | NonError => "Unknown error"
  end.

(** [error instanceof Error ? error.stack : undefined] *)
Definition errorStack (e : fault) : option string :=
  match e with
  | ErrorObj _ s => s
  | NonError => None
  end.

Inductive loglevel := LDebug | LLog | LWarn | LError.

Record logentry := Log { level : loglevel; text : string; trace : option string }.

(** Decimal rendering of an integer, as Redis renders a counter and as
    the index of an array element names its property. *)
Definition dec (z : Z) : string := NilZero.string_of_int (Z.to_int z).

(** ** JavaScript numbers

    The numbers of this code are integers, [NaN] and the two infinities;
    [-0] is not told apart from [0] (the code compares and prints numbers,
    and both treat the two alike). *)
Inductive number :=
  | NaN
  | Infinity
  | NegInfinity
  | Int (z : Z).
Coercion Int : Z >-> number.

(** The number for a mathematical integer: the nearest double, a tie going
    to the even significand (of 53 bits), and an infinity from
    [2^1024 - 2^970] on. *)
Definition to_number (z : Z) : number :=
  let a := Z.abs z in
  if a <=? 2 ^ 53 then Int z
  else
    let e := Z.log2 a - 52 in
    let q := a / 2 ^ e in
    let r := a mod 2 ^ e in
    let half := 2 ^ (e - 1) in
    let q' := if (r <? half) || ((r =? half) && Z.even q) then q else q + 1 in
    let a' := q' * 2 ^ e in
    if 2 ^ 1024 <=? a' then (if z <? 0 then NegInfinity else Infinity)
    else Int (Z.sgn z * a').

(** [x >= y] *)
Definition number_ge (x : number) (y : Z) : bool :=
  match x with
  | NaN | NegInfinity => false
  | Infinity => true
  | Int z => y <=? z
  end.

(** [!x] is false *)
Definition number_truthy (x : number) : bool :=
  match x with
  | NaN => false
  | Int z => negb (z =? 0)
  | _ => true
  end.

(** ** [`${x}`]

    An integer up to [2^53] is printed digit by digit.  Above, doubles are
    sparse, and what is printed is the integer of the fewest significant
    digits that still reads back as [x] (the nearest to [x], if there are
    several), in exponent form from [10^21] on. *)

(** [c] reads back as the double [a] *)
Definition reads_as (a c : Z) : bool :=
  match to_number c with
  | Int z => z =? a
  | _ => false
  end.

(** Of the two multiples of [p] around [a], the one that reads back as
    [a]; the nearer one if both do, and the one with the even digit if
    they are equally near. *)
Definition candidate (a p : Z) : option Z :=
  let lo := a / p * p in
  let hi := lo + p in
  match reads_as a lo, reads_as a hi with
  | true, true =>
      if a - lo <? hi - a then Some lo
      else if hi - a <? a - lo then Some hi
      else if Z.even (lo / p) then Some lo else Some hi
  | true, false => Some lo
  | false, true => Some hi
  | false, false => None
  end.

(** The first candidate, trying the powers of ten [exps] in turn, highest
    first. *)
Fixpoint shortest (a : Z) (exps : list nat) : Z :=
  match exps with
  | [] => a
  | m :: exps' =>
      match candidate a (10 ^ Z.of_nat m) with
      | Some c => c
      | None => shortest a exps'
      end
  end.

Fixpoint strip_zeros (reversed : string) : string :=
  match reversed with
  | String "0" r => strip_zeros r
  | _ => reversed
  end.

(** [d.ddde+n] *)
Definition exponent_form (c : Z) : string :=
  let d := dec c in
  let e := Z.of_nat (String.length d) - 1 in
  match String.rev (strip_zeros (String.rev d)) with
  | String x EmptyString => String x EmptyString +:+ "e+" +:+ dec e
  | String x r => String x ("." +:+ r) +:+ "e+" +:+ dec e
  | EmptyString => d
  end.

Definition number_text (x : number) : string :=
  match x with
  | NaN => "NaN"
  | Infinity => "Infinity"
  | NegInfinity => "-Infinity"
  | Int z =>
      let a := Z.abs z in
      if a <=? 2 ^ 53 then dec z
      else
        let c := shortest a (rev (seq 0 (String.length (dec a)))) in
        (if z <? 0 then "-" else "") +:+
        (if c <? 10 ^ 21 then dec c else exponent_form c)
  end.

(** Completion of a call: it returns, or it throws (an [async] function
    whose promise rejects). *)
Inductive outcome (E A : Type) :=
  | Ret (a : A)
  | Throw (e : E).
Arguments Ret {E A} a.
Arguments Throw {E A} e.

(** Stateful, fallible computations: the state reached when the call
    completes is kept also when it throws. *)
Definition M (E S A : Type) : Type := S → outcome E A * S.

Definition ret {E S A} (a : A) : M E S A := λ s, (Ret a, s).
Definition throw {E S A} (e : E) : M E S A := λ s, (Throw e, s).
Definition bind {E S A B} (m : M E S A) (k : A → M E S B) : M E S B :=
  λ s, match m s with
       | (Ret a, s') => k a s'
       | (Throw e, s') => (Throw e, s')
       end.
(** [try { m } catch (error) { h error }] *)
Definition try_catch {E S A} (m : M E S A) (h : E → M E S A) : M E S A :=
  λ s, match m s with
       | (Ret a, s') => (Ret a, s')
       | (Throw e, s') => h e s'
       end.
Definition modify {E S} (f : S → S) : M E S unit := λ s, (Ret tt, f s).
Definition gets {E S A} (f : S → A) : M E S A := λ s, (Ret (f s), s).

Notation "'let!' x ':=' m 'in' k" := (bind m (λ x, k))
  (at level 10, x name, m at level 100, k at level 200,
   format "'[v' 'let!'  x  ':='  m  'in' '/' k ']'").

(** * The rate-limit guard *)
Module RateLimit.

(** ** Redis, as far as the guard uses it

    A key holds a string and possibly an absolute expiry time in
    milliseconds; a key whose expiry has passed is gone. *)
Record rentry := REntry { rval : string; rexpire : option Z }.

Definition live (now : Z) (e : rentry) : bool :=
  match rexpire e with
  | None => true
  | Some t => now <? t
  end.

Definition lookup_live (now : Z) (db : gmap string rentry) (key : string) : option rentry :=
  match db !! key with
  | Some e => if live now e then Some e else None
  | None => None
  end.

(** [GET key]: the string, or nil. *)
Definition redis_get (now : Z) (db : gmap string rentry) (key : string) : option string :=
  rval <$> lookup_live now db key.

(** [TTL key]: -2 when the key does not exist, -1 when it has no expiry,
    otherwise the remaining time rounded to seconds. *)
Definition redis_ttl (now : Z) (db : gmap string rentry) (key : string) : Z :=
  match lookup_live now db key with
  | None => -2
  | Some e =>
      match rexpire e with
      | None => -1
      | Some t => (t - now + 500) / 1000
      end
  end.

(** Redis reads a counter strictly: the canonical decimal form of a signed
    64-bit integer, nothing else. *)
Definition string2ll (s : string) : option Z :=
  match NilZero.int_of_string s with
  | Some d =>
      let z := Z.of_int d in
      if String.eqb (dec z) s && (- 2 ^ 63 <=? z) && (z <=? 2 ^ 63 - 1)
      then Some z else None
  | None => None
  end.

Inductive reply :=
  | RInt (n : Z)
  | RErr (msg : string).

(** [INCR key]: an absent key counts from 0 and is created without expiry;
    an existing key keeps its expiry. *)
Definition redis_incr (now : Z) (db : gmap string rentry) (key : string)
  : reply * gmap string rentry :=
  match lookup_live now db key with
  | None => (RInt 1, <[key := REntry (dec 1) None]> db)
  | Some e =>
      match string2ll (rval e) with
      | Some n =>
          if n <? 2 ^ 63 - 1
          then (RInt (n + 1), <[key := REntry (dec (n + 1)) (rexpire e)]> db)
          else (RErr "ERR increment or decrement would overflow", db)
      | None => (RErr "ERR value is not an integer or out of range", db)
      end
  end.

(** [EXPIRE key seconds] (no NX/XX/GT/LT option): sets the expiry of an
    existing key to [seconds] from now, whether or not it had one; a
    non-positive [seconds] deletes the key. *)
Definition redis_expire (now : Z) (db : gmap string rentry) (key : string) (seconds : Z)
  : reply * gmap string rentry :=
  match lookup_live now db key with
  | None => (RInt 0, db)
  | Some e =>
      if seconds <=? 0 then (RInt 1, delete key db)
      else (RInt 1, <[key := REntry (rval e) (Some (now + seconds * 1000))]> db)
  end.

(** [MULTI; INCR key; EXPIRE key seconds; EXEC]: both commands run with
    nothing in between; a command that replies with an error does not stop
    the next one. *)
Definition redis_incr_expire (now : Z) (db : gmap string rentry) (key : string) (seconds : Z)
  : list reply * gmap string rentry :=
  let '(r1, db1) := redis_incr now db key in
  let '(r2, db2) := redis_expire now db1 key seconds in
  ([r1; r2], db2).

(** ** [parseInt(s, 10)] *)
Definition is_space (c : ascii) : bool :=
  let n := nat_of_ascii c in
  ((9 <=? n)%nat && (n <=? 13)%nat) || (n =? 32)%nat.

Definition digit (c : ascii) : option Z :=
  let n := nat_of_ascii c in
  if ((48 <=? n)%nat && (n <=? 57)%nat) then Some (Z.of_nat n - 48) else None.

Fixpoint skip_spaces (s : string) : string :=
  match s with
  | String c r => if is_space c then skip_spaces r else s
  | EmptyString => s
  end.

(** the longest prefix of digits; [None] when it is empty *)
Fixpoint digits (s : string) (acc : option Z) : option Z :=
  match s with
  | String c r =>
      match digit c with
      | Some d => digits r (Some (10 * default 0 acc + d))
      | None => acc
      end
  | EmptyString => acc
  end.

(** The integer the digits denote, with its sign, as a number; [NaN]
    when there is no digit. *)
Definition parseInt (s : string) : number :=
  let signed sign ds :=
    match digits ds None with
    | Some n => to_number (sign * n)
    | None => NaN
    end in
  match skip_spaces s with
  | String "-" r => signed (-1) r
  | String "+" r => signed 1 r
  | r => signed 1 r
  end.

(** ** The guard *)

(** [RateLimitOptions] of the [@RateLimit] decorator. *)
Record RateLimitOptions := Options { limit : Z; windowMs : Z }.

(** The response object of the 429 exception; [nextValidRequestTime] is
    the [Date] as milliseconds since the epoch. *)
Record TooManyRequests := Response {
  statusCode : Z;
  message : string;
  limit' : Z;
  current : number;
  remainingRequests : Z;
  nextValidRequestTime : Z
}.

Definition TOO_MANY_REQUESTS : Z := 429.

(** What can be thrown inside [handleRateLimit]: the guard's own
    [HttpException], or whatever the Redis client raised. *)
Inductive thrown :=
  | HttpException (response : TooManyRequests) (status : Z)
  | StoreFault (e : fault).

(** Which of the three Redis calls of one request fails, if any. *)
Record faults := Faults {
  on_get : option fault;
  on_ttl : option fault;
  on_exec : option fault
}.

Definition healthy : faults := Faults None None None.

(** The state a request acts on: the Redis database and the logger's
    output. *)
Record guard := Guard { redis : gmap string rentry; logs : list logentry }.

(** One awaited call on [this.redis]: it rejects with the fault, leaving
    the database as it was, or performs the command. *)
Definition redis_call {A} (f : option fault) (cmd : gmap string rentry → A * gmap string rentry)
  : M thrown guard A :=
  match f with
  | Some e => throw (StoreFault e)
  | None => λ g, let '(a, db) := cmd (redis g) in (Ret a, Guard db (logs g))
  end.

Definition logger (lv : loglevel) (msg : string) (tr : option string) : M thrown guard unit :=
  modify (λ g, Guard (redis g) (logs g ++ [Log lv msg tr])).

Definition rate_limit_key (hashedIp route : string) : string :=
  "ratelimit:" +:+ hashedIp +:+ ":" +:+ route.

(** [current ? parseInt(current, 10) : 0]: nil and the empty string are
    falsy. *)
Definition count_of (current : option string) : number :=
  match current with
  | Some EmptyString | None => Int 0
  | Some s => parseInt s
  end.

Definition handleRateLimit (now : Z) (fl : faults)
    (hashedIp route : string) (options : RateLimitOptions) : M thrown guard bool :=
  let windowSeconds := windowMs options / 1000 in
  let key := rate_limit_key hashedIp route in
  try_catch
    (let! current := redis_call (on_get fl) (λ db, (redis_get now db key, db)) in
     let currentCount := count_of current in
     if number_ge currentCount (limit options) then
       let! ttl := redis_call (on_ttl fl) (λ db, (redis_ttl now db key, db)) in
       let! _ := logger LWarn
         ("Rate limit exceeded for " +:+ hashedIp +:+ " on " +:+ route +:+ ": "
            +:+ number_text currentCount +:+ "/" +:+ number_text (limit options)) None in
       throw (HttpException
                {| statusCode := TOO_MANY_REQUESTS;
                   message := "Too many requests, please try again later.";
                   limit' := limit options;
                   current := currentCount;
                   remainingRequests := 0;
                   nextValidRequestTime := now + ttl * 1000 |}
                TOO_MANY_REQUESTS)
     else
       let! _ := redis_call (on_exec fl) (λ db, redis_incr_expire now db key windowSeconds) in
       ret true)
    (λ error,
       match error with
       | HttpException _ _ => throw error
       | StoreFault e =>
           let! _ := logger LError ("Error in rate limit check: " +:+ errorMessage e)
                       (errorStack e) in
           ret true
       end).

(** [canActivate]: the options come from the reflector ([None] when the
    route carries no [@RateLimit]); the request gives the client address,
    the method and the route.  [hashIp] is SHA-256 in hexadecimal. *)
Record request := Request {
  ip : string;
  method : string;
  route_path : option string;
  url : string
}.

Section CanActivate.
Variable hashIp : string → string.

Definition canActivate (now : Z) (fl : faults)
    (rateLimitOptions : option RateLimitOptions) (req : request) : M thrown guard bool :=
  match rateLimitOptions with
  | None => ret true
  | Some opts =>
      let hashedIp := hashIp (ip req) in
      let path :=
        match route_path req with
        | Some EmptyString | None => url req
        | Some p => p
        end in
      handleRateLimit now fl hashedIp (method req +:+ ":" +:+ path) opts
  end.
End CanActivate.

End RateLimit.

(** * The cache service *)
Module Cache.

(** ** JavaScript values

    Objects and arrays live in a heap and are held by reference: two
    holders of the same [JRef] see each other's writes.  Values are plain
    data (no functions, no [toJSON], no accessors). *)
Abbreviation loc := nat.

Inductive jsval :=
  | JUndefined
  | JNull
  | JBool (b : bool)
  | JNum (n : Z)
  | JStr (s : string)
  | JRef (l : loc).

Inductive jsobj :=
  | Obj (props : list (string * jsval))
  | Arr (elems : list jsval).

(** The tree a JSON text denotes. *)
#[local] Set Warnings "-register-all".
Inductive json :=
  | JsNull
  | JsBool (b : bool)
  | JsNum (n : Z)
  | JsStr (s : string)
  | JsArr (elems : list json)
  | JsObj (props : list (string * json)).

(** [JSON.stringify] below a given nesting budget.  Outer [None]: the
    TypeError for a circular structure (the budget ran out).  Inner [None]:
    [undefined], which an array renders as [null] and an object leaves
    out. *)
Fixpoint stringify_at (fuel : nat) (h : list jsobj) (v : jsval) : option (option json) :=
  match v with
  | JUndefined => Some None
  | JNull => Some (Some JsNull)
  | JBool b => Some (Some (JsBool b))
  | JNum n => Some (Some (JsNum n))
  | JStr s => Some (Some (JsStr s))
  | JRef l =>
      match fuel with
      | O => None
      | S fuel' =>
          match h !! l with
          | None => None
          | Some (Arr es) =>
              match mapM (λ e, match stringify_at fuel' h e with
                               | Some (Some j) => Some j
                               | Some None => Some JsNull
                               | None => None
                               end) es with
              | Some js => Some (Some (JsArr js))
              | None => None
              end
          | Some (Obj ps) =>
              match mapM (λ p, match stringify_at fuel' h (snd p) with
                               | Some (Some j) => Some [(fst p, j)]
                               | Some None => Some []
                               | None => None
                               end) ps with
              | Some jss => Some (Some (JsObj (concat jss)))
              | None => None
              end
          end
      end
  end.

(** A chain of references without a repetition visits at most
    [length h] objects, so this budget runs out exactly on a cycle. *)
Definition JSON_stringify (h : list jsobj) (v : jsval) : option (option json) :=
  stringify_at (S (length h)) h v.

(** [JSON.parse]: builds the value out of new objects, which will sit in
    the heap from address [base] on. *)
Fixpoint JSON_parse (j : json) (base : nat) : list jsobj * jsval :=
  match j with
  | JsNull => ([], JNull)
  | JsBool b => ([], JBool b)
  | JsNum n => ([], JNum n)
  | JsStr s => ([], JStr s)
  | JsArr js =>
      let '(objs, vs) :=
        (fix go (js : list json) (base : nat) : list jsobj * list jsval :=
           match js with
           | [] => ([], [])
           | j :: js' =>
               let '(o1, v) := JSON_parse j base in
               let '(o2, vs) := go js' (base + length o1)%nat in
               (o1 ++ o2, v :: vs)
           end) js base in
      (objs ++ [Arr vs], JRef (base + length objs)%nat)
  | JsObj ps =>
      let '(objs, vs) :=
        (fix go (ps : list (string * json)) (base : nat) : list jsobj * list (string * jsval) :=
           match ps with
           | [] => ([], [])
           | p :: ps' =>
               let '(o1, v) := JSON_parse (snd p) base in
               let '(o2, vs) := go ps' (base + length o1)%nat in
               (o1 ++ o2, (fst p, v) :: vs)
           end) ps base in
      (objs ++ [Obj vs], JRef (base + length objs)%nat)
  end.

(** [String(v)], as a template literal renders a value. *)
Fixpoint ToString_at (fuel : nat) (h : list jsobj) (v : jsval) : string :=
  match v with
  | JUndefined => "undefined"
  | JNull => "null"
  | JBool true => "true"
  | JBool false => "false"
  | JNum n => number_text n
  | JStr s => s
  | JRef l =>
      match fuel with
      | O => ""
      | S fuel' =>
          match h !! l with
          | Some (Obj _) => "[object Object]"
          | Some (Arr es) =>
              String.concat ","
                (map (λ e, match e with
                           | JUndefined | JNull => ""
                           | _ => ToString_at fuel' h e
                           end) es)
          | None => ""
          end
      end
  end.

Definition ToString (h : list jsobj) (v : jsval) : string :=
  ToString_at (S (length h)) h v.

(** ** What callers pass

    The signatures say [key: string]; nothing enforces that at run time.
    Besides a plain value a caller can pass a Symbol, the one kind of
    primitive that a template literal cannot render. *)
Inductive keyarg :=
  | Plain (v : jsval)
  | ASymbol.
Coercion Plain : jsval >-> keyarg.

(** An element of the list given to [mset], as the parameter pattern
    [[key, value]] of the callback sees it: something that is not
    iterable ([null], [undefined], a number, a plain object), on which the
    pattern throws a TypeError with the engine's message for that value;
    or an iterable -- a pair, any other array, a string --, of which the
    pattern binds the first two items ([undefined] for an item that is not
    there). *)
Inductive entry :=
  | NotIterable (message : string)
  | Items (key : keyarg) (value : jsval).

(** An argument that [Array.isArray] tells apart: some value that is not
    an array, or an array of elements. *)
Inductive jsarg (A : Type) :=
  | NotArray (v : jsval)
  | IsArray (xs : list A).
Arguments NotArray {A} v.
Arguments IsArray {A} xs.

(** ** The cache-manager handle

    [this.cacheManager] keeps, per key, the value it was given -- the very
    reference, for an object -- until the entry's time to live has passed,
    and resolves [get] of a key it does not hold to its own "absent"
    result. *)
Record centry := CEntry { cval : jsval; cexpires : Z }.

Inductive cm_op := OpGet | OpSet | OpDel.

Inductive missing := AsNull | AsUndefined.

Definition missing_value (a : missing) : jsval :=
  match a with
  | AsNull => JNull
  | AsUndefined => JUndefined
  end.

(** The process: the JavaScript heap, the cache manager's entries, the
    service's [cachedKeys] (a [Set], in insertion order) and the logger's
    output. *)
Record world := World {
  heap : list jsobj;
  entries : gmap string centry;
  cachedKeys : list string;
  logs : list logentry
}.

Definition set_heap (h : list jsobj) (w : world) : world :=
  World h (entries w) (cachedKeys w) (logs w).
Definition set_entries (m : gmap string centry) (w : world) : world :=
  World (heap w) m (cachedKeys w) (logs w).
Definition set_cachedKeys (ks : list string) (w : world) : world :=
  World (heap w) (entries w) ks (logs w).

Definition logger (lv : loglevel) (msg : string) : M fault world unit :=
  modify (λ w, World (heap w) (entries w) (cachedKeys w) (logs w ++ [Log lv msg None])).

(** [new Error(msg)]; of the stack only the header line is kept. *)
Definition Error (msg : string) : fault := ErrorObj msg (Some ("Error: " +:+ msg)).
Definition TypeError (msg : string) : fault := ErrorObj msg (Some ("TypeError: " +:+ msg)).
Definition SyntaxError (msg : string) : fault := ErrorObj msg (Some ("SyntaxError: " +:+ msg)).

(** [JSON.parse(JSON.stringify(value))] *)
Definition clone (value : jsval) : M fault world jsval :=
  λ w, match JSON_stringify (heap w) value with
       | Some (Some j) =>
           let '(objs, v) := JSON_parse j (length (heap w)) in
           (Ret v, set_heap (heap w ++ objs) w)
       | Some None => (Throw (SyntaxError "Unexpected token u in JSON at position 0"), w)
       | None => (Throw (TypeError "Converting circular structure to JSON"), w)
       end.

(** [Set.prototype.add], [Set.prototype.delete] *)
Definition set_add (k : string) (ks : list string) : list string :=
  if decide (k ∈ ks) then ks else ks ++ [k].
Definition set_delete (k : string) (ks : list string) : list string :=
  filter (λ k', k' ≠ k) ks.

(** [for (x of xs) await f(x)] *)
Fixpoint for_each {A} (f : A → M fault world unit) (xs : list A) : M fault world unit :=
  match xs with
  | [] => ret tt
  | x :: xs' => let! _ := f x in for_each f xs'
  end.

(** [xs.map(f)]: the calls are made in the order of [xs]; when one throws,
    [map] throws and the remaining calls are not made. *)
Fixpoint Array_map {A B} (f : A → M fault world B) (xs : list A) : M fault world (list B) :=
  match xs with
  | [] => ret []
  | x :: xs' => let! y := f x in let! ys := Array_map f xs' in ret (y :: ys)
  end.

(** A call of an [async] function: the call itself does not throw, it
    returns a promise, and the promise settles as the body completes.  The
    body is run to completion at the call: calls started together are
    modelled as running one after the other. *)
Definition async {A} (body : M fault world A) : M fault world (outcome fault A) :=
  λ w, let '(r, w') := body w in (Ret r, w').

(** [await Promise.all(promises)]: the results of all, or the rejection of
    the first that rejected. *)
Fixpoint settled {A} (promises : list (outcome fault A)) : outcome fault (list A) :=
  match promises with
  | [] => Ret []
  | Throw e :: _ => Throw e
  | Ret a :: promises' =>
      match settled promises' with
      | Ret results => Ret (a :: results)
      | Throw e => Throw e
      end
  end.

Definition Promise_all {A} (promises : list (outcome fault A)) : M fault world (list A) :=
  λ w, (settled promises, w).

(** [Object.fromEntries]: the property names are the keys as strings, and
    a later entry for a name replaces an earlier one.  (A Symbol names a
    property of its own, which is not among those with a string for a
    name.) *)
Definition fromEntries (h : list jsobj) (kvs : list (keyarg * jsval)) : gmap string jsval :=
  foldl (λ m kv, match fst kv with
                 | Plain k => <[ToString h k := snd kv]> m
                 | ASymbol => m
                 end) ∅ kvs.

Section Service.
(** [configService.get('NODE_ENV')], read once by the constructor. *)
Variable NODE_ENV : option string.
(** What the cache manager's [get] resolves to for a key it does not
    hold: [null] or [undefined], depending on the handle injected. *)
Variable absent : missing.
(** The time of the call, and which cache-manager calls fail in it. *)
Variable now : Z.
Variable flt : cm_op → string → option fault.

Definition namespace : string :=
  "taskflow:" +:+ default "development" NODE_ENV +:+ ":".

(** One awaited call on [this.cacheManager]. *)
Definition cm_call {A} (op : cm_op) (key : string) (act : world → A * world)
  : M fault world A :=
  match flt op key with
  | Some e => throw e
  | None => λ w, let '(a, w') := act w in (Ret a, w')
  end.

Definition cm_set (key : string) (value : jsval) (ttl : Z) : M fault world unit :=
  cm_call OpSet key
    (λ w, (tt, set_entries (<[key := CEntry value (now + ttl)]> (entries w)) w)).

Definition cm_get (key : string) : M fault world jsval :=
  cm_call OpGet key
    (λ w, (match entries w !! key with
           | Some e => if now <? cexpires e then cval e else missing_value absent
           | None => missing_value absent
           end, w)).

Definition cm_del (key : string) : M fault world unit :=
  cm_call OpDel key (λ w, (tt, set_entries (delete key (entries w)) w)).

Definition getNamespacedKey (key : keyarg) : M fault world string :=
  match key with
  | Plain (JStr EmptyString) => throw (Error "Cache key must be a non-empty string")
  | Plain (JStr s) => ret (namespace +:+ s)
  | _ => throw (Error "Cache key must be a non-empty string")
  end.

(** [`${key}`] *)
Definition symbol_error : fault := TypeError "Cannot convert a Symbol value to a string".

Definition show (key : keyarg) : M fault world string :=
  match key with
  | Plain k => gets (λ w, ToString (heap w) k)
  | ASymbol => throw symbol_error
  end.

Definition set (key : keyarg) (value : jsval) (ttlSeconds : Z) : M fault world unit :=
  try_catch
    (let! namespacedKey := getNamespacedKey key in
     let! valueToStore :=
       match value with
       | JRef _ => clone value  (* typeof value === 'object' && value !== null *)
       | _ => ret value
       end in
     let! _ := cm_set namespacedKey valueToStore (ttlSeconds * 1000) in
     let! _ := modify (λ w, set_cachedKeys (set_add namespacedKey (cachedKeys w)) w) in
     logger LDebug
       ("Cache set: " +:+ namespacedKey +:+ " (TTL: " +:+ number_text ttlSeconds +:+ "s)"))
    (λ error,
       let! k := show key in
       logger LError ("Error setting cache key " +:+ k +:+ ": " +:+ errorMessage error)).

Definition get (key : keyarg) : M fault world jsval :=
  try_catch
    (let! namespacedKey := getNamespacedKey key in
     let! value := cm_get namespacedKey in
     match value with
     | JRef _ => clone value
     | _ => ret value
     end)
    (λ error,
       let! k := show key in
       let! _ := logger LError
                   ("Error getting cache key " +:+ k +:+ ": " +:+ errorMessage error) in
       ret JNull).

Definition delete (key : keyarg) : M fault world bool :=
  try_catch
    (let! namespacedKey := getNamespacedKey key in
     let! _ := cm_del namespacedKey in
     let! _ := modify (λ w, set_cachedKeys (set_delete namespacedKey (cachedKeys w)) w) in
     let! _ := logger LDebug ("Cache delete: " +:+ namespacedKey) in
     ret true)
    (λ error,
       let! k := show key in
       let! _ := logger LError
                   ("Error deleting cache key " +:+ k +:+ ": " +:+ errorMessage error) in
       ret false).

Definition clear : M fault world unit :=
  try_catch
    (let! keys := gets cachedKeys in
     let! _ := for_each
                 (λ key,
                    try_catch (cm_del key)
                      (λ err, logger LWarn
                                ("Failed to delete key " +:+ key +:+ ": " +:+ errorMessage err)))
                 keys in
     let! _ := modify (set_cachedKeys []) in
     logger LDebug "Cache cleared")
    (λ error, logger LError ("Error clearing cache: " +:+ errorMessage error)).

Definition has (key : keyarg) : M fault world bool :=
  try_catch
    (let! namespacedKey := getNamespacedKey key in
     let! value := cm_get namespacedKey in
     ret (match value with
          | JUndefined | JNull => false
          | _ => true
          end))
    (λ error,
       let! k := show key in
       let! _ := logger LError
                   ("Error checking cache key " +:+ k +:+ ": " +:+ errorMessage error) in
       ret false).

(** [mset]: the callback of [map] takes its element apart, outside any
    [try], and calls [set].  When [map] throws, the calls of [set] made
    before are under way, and the world at the throw is the one they
    leave. *)
Definition mset (entries : jsarg entry) (ttlSeconds : Z) : M fault world unit :=
  match entries with
  | NotArray _ => throw (Error "Entries must be an array of key-value pairs")
  | IsArray es =>
      let! promises :=
        Array_map (λ e, match e with
                        | NotIterable msg => throw (TypeError msg)
                        | Items key value => async (set key value ttlSeconds)
                        end) es in
      let! _ := Promise_all promises in
      ret tt
  end.

Definition mget (keys : jsarg keyarg) : M fault world (gmap string jsval) :=
  match keys with
  | NotArray _ => throw (Error "Keys must be an array")
  | IsArray ks =>
      let! promises :=
        Array_map (λ key, async (let! v := get key in ret (key, v))) ks in
      let! results := Promise_all promises in
      let! h := gets heap in
      ret (fromEntries h results)
  end.
End Service.

(** A service just constructed, over an empty cache. *)
Definition fresh : world := World [] ∅ [] [].

(** A cache manager that answers every call. *)
Definition no_faults : cm_op → string → option fault := λ _ _, None.

(** ** Vocabulary of the specifications *)

(** [hoare P m Q R]: from a world satisfying [P], [m] either returns [a]
    in a world satisfying [Q a] or throws [e] in a world satisfying
    [R e]. *)
Definition hoare {A} (P : world → Prop) (m : M fault world A)
    (Q : A → world → Prop) (R : fault → world → Prop) : Prop :=
  ∀ w, P w → match m w with
             | (Ret a, w') => Q a w'
             | (Throw e, w') => R e w'
             end.

(** A key of the service's own namespace. *)
Definition namespaced (NODE_ENV : option string) (k : string) : Prop :=
  String.prefix (namespace NODE_ENV) k = true.

(** Every tracked key is namespaced. *)
Definition tracked_ok (NODE_ENV : option string) (w : world) : Prop :=
  Forall (namespaced NODE_ENV) (cachedKeys w).

(** A property of the world that looks at the tracked keys only. *)
Definition on_keys (I : world → Prop) : Prop :=
  ∀ w w', cachedKeys w' = cachedKeys w → I w → I w'.

(** Two heaps hold the same objects at the addresses [lo, hi). *)
Definition same_between (lo hi : nat) (h h' : list jsobj) : Prop :=
  ∀ l, (lo ≤ l < hi)%nat → h' !! l = h !! l.

(** [v], in the heap [h'], is what the cache of the world [w] holds under
    the key [k] at the time [now]: the cached value itself when it is not
    an object, an object that reads as the cached object does when it is
    one, and the cache manager's "absent" result when there is no entry or
    its time to live has passed. *)
Definition answers (NODE_ENV : option string) (absent : missing) (now : Z)
    (w : world) (h' : list jsobj) (k : string) (v : jsval) : Prop :=
  match entries w !! (namespace NODE_ENV +:+ k) with
  | Some e =>
      if now <? cexpires e then
        match cval e with
        | JRef l =>
            ∀ j, JSON_stringify (heap w) (JRef l) = Some (Some j) →
                 ∃ r, v = JRef r ∧ JSON_stringify h' (JRef r) = Some (Some j)
        | u => v = u
        end
      else v = missing_value absent
  | None => v = missing_value absent
  end.

(** The heap [H] holds the objects [objs] from address [base] on. *)
Definition holds (H : list jsobj) (base : nat) (objs : list jsobj) : Prop :=
  ∀ i o, objs !! i = Some o → H !! (base + i)%nat = Some o.




(** The arguments of well-typed calls: a list of strings for [mget], a
    list of pairs of a string and a value for [mset]. *)
Definition strings (ks : list string) : jsarg keyarg :=
  IsArray ((λ k, Plain (JStr k)) <$> ks).

Definition pairs (es : list (string * jsval)) : jsarg entry :=
  IsArray ((λ kv, Items (JStr (fst kv)) (snd kv)) <$> es).

End Cache.

(** * The logging interceptor: what is kept out of the logs

    [src/common/interceptors/logging.interceptor.ts], its two helpers
    [sanitizeData] and [extractSafeHeaders].  They read their argument and
    build new objects, so values are trees here; a body that refers to
    itself (on which [sanitizeData] would not return) is not one.  Strings
    are ASCII text. *)
Module Logging.

#[local] Set Warnings "-register-all".
Inductive value :=
  | VUndefined
  | VNull
  | VBool (b : bool)
  | VNum (n : number)
  | VStr (s : string)
  | VArr (elems : list value)
  | VObj (props : list (string * value)).

(** [!v] is false *)
Definition truthy (v : value) : bool :=
  match v with
  | VUndefined | VNull | VBool false | VStr EmptyString => false
  | VNum n => number_truthy n
  | _ => true
  end.

Definition lower (c : ascii) : ascii :=
  let n := nat_of_ascii c in
  if ((65 <=? n)%nat && (n <=? 90)%nat) then ascii_of_nat (n + 32) else c.

Fixpoint toLowerCase (s : string) : string :=
  match s with
  | String c r => String (lower c) (toLowerCase r)
  | EmptyString => EmptyString
  end.

(** [s.includes(sub)] *)
Fixpoint includes (s sub : string) : bool :=
  String.prefix sub s ||
  match s with
  | String _ r => includes r sub
  | EmptyString => false
  end.

Definition sensitiveFields : list string :=
  ["password"; "token"; "secret"; "authorization"; "refreshToken"; "ssn"; "socialSecurity"].

(** [sensitiveFields.some(field => key.toLowerCase().includes(field.toLowerCase()))] *)
Definition is_sensitive (key : string) : bool :=
  existsb (λ field, includes (toLowerCase key) (toLowerCase field)) sensitiveFields.

Definition REDACTED : value := VStr "[REDACTED]".

(** What the callback of [forEach] leaves under [key], given the value [v]
    copied there and the result [rec] of [sanitizeData(v)]. *)
Definition sanitized_field (key : string) (v rec : value) : string * value :=
  (key,
   if is_sensitive key then REDACTED
   else match v with
        | VArr _ | VObj _ => rec  (* typeof v === 'object' && v !== null *)
        | _ => v
        end).

(** [{ ...s }] of a string: its characters under their indices. *)
Fixpoint spread_string (i : nat) (s : string) : list (string * value) :=
  match s with
  | String c r => (dec (Z.of_nat i), VStr (String c EmptyString)) :: spread_string (S i) r
  | EmptyString => []
  end.

(** [sanitizeData]: a falsy argument is returned as it is; of anything else
    a copy [{ ...data }] is made -- the own properties of an object, the
    elements of an array under their indices, the characters of a string,
    nothing for a number or [true] -- and every property of the copy is
    redacted, sanitized in turn, or left. *)
Fixpoint sanitizeData (data : value) : value :=
  match data with
  | VObj ps =>
      VObj ((fix go (ps : list (string * value)) : list (string * value) :=
               match ps with
               | [] => []
               | p :: ps' => sanitized_field (fst p) (snd p) (sanitizeData (snd p)) :: go ps'
               end) ps)
  | VArr es =>
      VObj ((fix go (i : nat) (es : list value) : list (string * value) :=
               match es with
               | [] => []
               | v :: es' =>
                   sanitized_field (dec (Z.of_nat i)) v (sanitizeData v) :: go (S i) es'
               end) O es)
  | VStr s =>
      if truthy data
      then VObj (map (λ p, sanitized_field (fst p) (snd p) (snd p)) (spread_string O s))
      else data
  | VNum _ | VBool _ => if truthy data then VObj [] else data
  | VNull | VUndefined => data
  end.

(** [extractSafeHeaders]: the headers are an object, name to value. *)
Definition unsafeHeaders : list string := ["authorization"; "cookie"; "x-auth-token"].

Definition extractSafeHeaders (headers : gmap string value) : gmap string value :=
  foldl (λ safeHeaders header,
           match safeHeaders !! header with
           | Some v => if truthy v then base.delete header safeHeaders else safeHeaders
           | None => safeHeaders
           end)
        headers unsafeHeaders.

(** ** Vocabulary of the specifications *)

(** No property with a sensitive name, at any depth, holds anything but
    the redaction mark. *)
Fixpoint redacted (v : value) : Prop :=
  match v with
  | VObj ps =>
      (fix all (ps : list (string * value)) : Prop :=
         match ps with
         | [] => True
         | p :: ps' =>
             (if is_sensitive (fst p) then snd p = REDACTED else redacted (snd p)) ∧ all ps'
         end) ps
  | VArr es =>
      (fix all (es : list value) : Prop :=
         match es with
         | [] => True
         | v :: es' => redacted v ∧ all es'
         end) es
  | _ => True
  end.

(** The value holds no array, at any depth. *)
Fixpoint array_free (v : value) : Prop :=
  match v with
  | VObj ps =>
      (fix all (ps : list (string * value)) : Prop :=
         match ps with
         | [] => True
         | p :: ps' => array_free (snd p) ∧ all ps'
         end) ps
  | VArr _ => False
  | _ => True
  end.

End Logging.

(** * The exception filter

    [HttpExceptionFilter.catch]: the response sent for an [HttpException]
    and the line logged for it. *)
Module Filter.
Import Logging.

(** An [HttpException]: its status, what [getResponse()] returns (a string
    or an object), its [message] and its [stack] (it is an [Error], and
    has one unless somebody removed it). *)
Inductive exception_response :=
  | RString (s : string)
  | RObject (props : list (string * value)).

Record HttpException := Exception {
  getStatus : Z;
  getResponse : exception_response;
  message : string;
  stack : option string
}.

Record Request := Req {
  url : string;
  method : string;
  user_id : option string;
  body : value;
  query : value
}.

(** The JSON body sent; [timestamp] is the time of the call. *)
Record ErrorResponse := Body {
  success : bool;
  statusCode : Z;
  timestamp : Z;
  path : string;
  method' : string;
  message' : value;
  errors : option value
}.

(** The object serialised as the context of the log line. *)
Record LogContext := Context {
  userId : string;
  log_path : string;
  log_method : string;
  log_statusCode : Z;
  log_body : value;
  log_query : value
}.

Record LogLine := Line {
  level : loglevel;
  text : string;
  trace : option string;
  context : LogContext
}.

(** [name in obj], [obj[name]] for an object given by its properties *)
Definition prop (name : string) (ps : list (string * value)) : option value :=
  snd <$> List.find (λ p, String.eqb (fst p) name) ps.

Definition BAD_REQUEST : Z := 400.

(** [catch(exception, host)]: the status set on the response, the body
    sent, and the line logged. *)
Definition catch (now : Z) (exception : HttpException) (request : Request)
  : Z * ErrorResponse * LogLine :=
  let status := getStatus exception in
  let exceptionResponse := getResponse exception in
  let isServerError := 500 <=? status in
  let errorResponse :=
    {| success := false;
       statusCode := status;
       timestamp := now;
       path := url request;
       method' := method request;
       message' :=
         match exceptionResponse with
         | RObject ps => default (VStr (message exception)) (prop "message" ps)
         | RString _ => VStr (message exception)
         end;
       errors :=
         match exceptionResponse with
         | RObject ps =>
             if (status <? 500) && (status =? BAD_REQUEST) then prop "errors" ps else None
         | RString _ => None
         end |} in
  let userId :=
    match user_id request with
    | Some EmptyString | None => "anonymous"
    | Some id => id
    end in
  let logContext :=
    {| userId := userId;
       log_path := url request;
       log_method := method request;
       log_statusCode := status;
       log_body := if isServerError then VUndefined else body request;
       log_query := query request |} in
  (status, errorResponse,
   Line (if isServerError then LError else LWarn)
        ("HTTP Exception: " +:+ message exception)
        (if isServerError then stack exception else None)
        logContext).

(** The exception the rate-limit guard throws, as the filter receives it:
    Nest takes the [message] of an exception built from an object out of
    the object's [message] property, and [stack] is the trace recorded
    where the guard built the exception. *)
Definition of_guard (r : RateLimit.TooManyRequests) (status : Z) (stack : string)
  : HttpException :=
  Exception status
    (RObject [("statusCode", VNum (RateLimit.statusCode r));
              ("message", VStr (RateLimit.message r));
              ("limit", VNum (RateLimit.limit' r));
              ("current", VNum (RateLimit.current r));
              ("remainingRequests", VNum (RateLimit.remainingRequests r));
              ("nextValidRequestTime", VNum (RateLimit.nextValidRequestTime r))])
    (RateLimit.message r) (Some stack).

End Filter.

(** * Runs of the rate-limit guard *)
Module RateLimitRuns.
Import RateLimit.

(** Requests of one identity on one route, one after the other, at the
    given times, against a Redis that answers: the outcomes, in order, and
    the final state. *)
Fixpoint serve (hashedIp route : string) (opts : RateLimitOptions)
    (times : list Z) (g : guard) : list (outcome thrown bool) * guard :=
  match times with
  | [] => ([], g)
  | t :: times' =>
      let '(r, g1) := handleRateLimit t healthy hashedIp route opts g in
      let '(rs, g2) := serve hashedIp route opts times' g1 in
      (r :: rs, g2)
  end.

End RateLimitRuns.

(** * More vocabulary for the cache service *)
Module CacheVocabulary.
Import Cache.

(** Every entry the cache manager holds is tracked by the service. *)
Definition owned (w : world) : Prop :=
  ∀ k, is_Some (entries w !! k) → k ∈ cachedKeys w.

End CacheVocabulary.

(** * Properties of the rate-limit guard *)
Module RateLimitProofs.
Import RateLimit.

Example dec_42 : dec 42 = "42". Proof. reflexivity. Qed.
Example dec_neg : dec (-7) = "-7". Proof. reflexivity. Qed.
Example parseInt_3 : parseInt "3" = 3. Proof. reflexivity. Qed.
Example parseInt_12abc : parseInt " 12abc" = 12. Proof. reflexivity. Qed.
Example parseInt_neg : parseInt "-12" = (-12). Proof. reflexivity. Qed.
Example parseInt_nan : parseInt "abc" = NaN. Proof. reflexivity. Qed.
Example parseInt_tie_even :
  parseInt "9007199254740993" = 9007199254740992 ∧
  parseInt "9007199254740995" = 9007199254740996.
Proof. split; vm_compute; reflexivity. Qed.
Example parseInt_infinity :
  parseInt ("1797693134862315" +:+ String.string_of_list_ascii (repeat "9"%char 293))
    = Infinity.
Proof. vm_compute. reflexivity. Qed.
Example number_text_42 : number_text 42 = "42". Proof. reflexivity. Qed.
Example number_text_large :
  number_text (2 ^ 53 + 2) = "9007199254740994" ∧
  number_text (2 ^ 63) = "9223372036854776000" ∧
  number_text (2 ^ 64) = "18446744073709552000" ∧
  number_text (10 ^ 21) = "1e+21" ∧
  number_text (2 ^ 70) = "1.1805916207174113e+21" ∧
  number_text ((2 ^ 53 - 1) * 2 ^ 971) = "1.7976931348623157e+308".
Proof. repeat split; vm_compute; reflexivity. Qed.
Example string2ll_3 : string2ll "3" = Some 3. Proof. reflexivity. Qed.
Example string2ll_lead0 : string2ll "03" = None. Proof. reflexivity. Qed.
Example string2ll_junk : string2ll "12abc" = None. Proof. reflexivity. Qed.

Lemma lookup_live_insert now db key e :
  lookup_live now (<[key := e]> db) key = if live now e then Some e else None.
Proof. unfold lookup_live. by rewrite lookup_insert_eq. Qed.

(** The transaction on a key that is absent (or has expired): the counter
    starts at 1 and the window starts now. *)
Lemma incr_expire_absent now db key secs :
  lookup_live now db key = None → 0 < secs →
  snd (redis_incr_expire now db key secs)
    = <[key := REntry "1" (Some (now + secs * 1000))]> db.
Proof.
  intros Hl Hs. unfold redis_incr_expire, redis_incr, redis_expire.
  rewrite Hl, lookup_live_insert. cbn.
  destruct (Z.leb_spec secs 0); [lia|]. cbn. by rewrite insert_insert_eq.
Qed.

(** The transaction on a live counter: one more, and the expiry is set
    anew. *)
Lemma incr_expire_live now db key secs e n :
  lookup_live now db key = Some e → string2ll (rval e) = Some n →
  n < 2 ^ 63 - 1 → 0 < secs →
  snd (redis_incr_expire now db key secs)
    = <[key := REntry (dec (n + 1)) (Some (now + secs * 1000))]> db.
Proof.
  intros Hl Hn Hmax Hs. unfold redis_incr_expire, redis_incr, redis_expire.
  rewrite Hl, Hn. destruct (Z.ltb_spec n (2 ^ 63 - 1)); [|lia].
  rewrite lookup_live_insert.
  assert (live now (REntry (dec (n + 1)) (rexpire e)) = true) as ->.
  { unfold lookup_live in Hl. destruct (db !! key) as [e'|]; [|done].
    destruct (live now e') eqn:He; [|done]. by simplify_eq. }
  destruct (Z.leb_spec secs 0); [lia|]. cbn. by rewrite insert_insert_eq.
Qed.

(** A request that reads a count below the limit, with Redis answering. *)
Lemma allow_below now hashedIp route opts g :
  let key := rate_limit_key hashedIp route in
  number_ge (count_of (redis_get now (redis g) key)) (limit opts) = false →
  handleRateLimit now healthy hashedIp route opts g
    = (Ret true,
       Guard (snd (redis_incr_expire now (redis g) key (windowMs opts / 1000))) (logs g)).
Proof.
  intros key H. unfold handleRateLimit, try_catch, bind, redis_call. cbn.
  fold key. rewrite H. cbn. by destruct (redis_incr_expire _ _ _ _).
Qed.

(** A request that reads a count at or above the limit, and then the time
    to live: whether or not the transaction would have gone through, the
    429 exception leaves the guard and the database is as it was. *)
Lemma reject_at_limit now fl hashedIp route opts g :
  let key := rate_limit_key hashedIp route in
  let count := count_of (redis_get now (redis g) key) in
  on_get fl = None → on_ttl fl = None → number_ge count (limit opts) = true →
  handleRateLimit now fl hashedIp route opts g
    = (Throw (HttpException
                (Response 429 "Too many requests, please try again later."
                   (limit opts) count 0 (now + redis_ttl now (redis g) key * 1000)) 429),
       Guard (redis g)
         (logs g ++ [Log LWarn
            ("Rate limit exceeded for " +:+ hashedIp +:+ " on " +:+ route +:+ ": "
               +:+ number_text count +:+ "/" +:+ number_text (limit opts)) None])).
Proof.
  intros key count Hg Ht H. unfold handleRateLimit, try_catch, bind, redis_call.
  rewrite Hg, Ht. cbn. fold key. fold count. by rewrite H.
Qed.

(** An integer up to [2^53] is a number as it is. *)
Lemma to_number_safe z : Z.abs z ≤ 2 ^ 53 → to_number z = Int z.
Proof. intros H. unfold to_number. by destruct (Z.leb_spec (Z.abs z) (2 ^ 53)); [|lia]. Qed.

(** C1.  The transaction of an admitted request on a key that already has
    a time to live: a counter at 1 with 10 seconds left (limit 3, window
    60 s) is admitted, the counter becomes 2, and the key's time to live is
    60 seconds afterwards, not 10: EXPIRE took effect although the key had
    an expiry, and the window was extended. *)
Theorem admitted_request_resets_ttl :
  let key := rate_limit_key "h" "GET:/tasks" in
  let g := Guard {[ key := REntry "1" (Some 10000) ]} [] in
  let r := handleRateLimit 0 healthy "h" "GET:/tasks" (Options 3 60000) g in
  redis_ttl 0 (redis g) key = 10 ∧
  fst r = Ret true ∧
  redis_get 0 (redis (snd r)) key = Some "2" ∧
  redis_ttl 0 (redis (snd r)) key = 60.
Proof. vm_compute. done. Qed.

(** The same for every admitted request on a live counter: whatever expiry
    the key had, afterwards it expires a full window from now. *)
Lemma admitted_request_sets_expiry now hashedIp route opts g e n :
  let key := rate_limit_key hashedIp route in
  lookup_live now (redis g) key = Some e →
  count_of (Some (rval e)) = Int n → string2ll (rval e) = Some n →
  n < limit opts → n < 2 ^ 63 - 1 → 0 < windowMs opts / 1000 →
  handleRateLimit now healthy hashedIp route opts g
    = (Ret true,
       Guard (<[key := REntry (dec (n + 1)) (Some (now + windowMs opts / 1000 * 1000))]>
                (redis g))
             (logs g)).
Proof.
  intros key Hl Hc Hs Hlim Hmax Hw.
  rewrite allow_below; fold key.
  - by erewrite incr_expire_live.
  - unfold redis_get. rewrite Hl. cbn [fmap option_fmap option_map]. rewrite Hc.
    cbn. by destruct (Z.leb_spec (limit opts) n); [lia|].
Qed.

(** C2.  Limit 3, window 60000 ms, one identity and route, a key that does
    not exist when the first request arrives, and four requests within
    60 s of the first: the first three are admitted (the counter reads
    "1", "2", "3"), the fourth is rejected with status 429, limit 3,
    current 3, remainingRequests 0 and nextValidRequestTime = now + TTL,
    and the rejection leaves the database -- counter and expiry -- as it
    was. *)
Theorem four_requests_limit_3 hashedIp route db lg t1 t2 t3 t4 :
  let key := rate_limit_key hashedIp route in
  let opts := Options 3 60000 in
  let db1 := <[key := REntry "1" (Some (t1 + 60000))]> db in
  let db2 := <[key := REntry "2" (Some (t2 + 60000))]> db in
  let db3 := <[key := REntry "3" (Some (t3 + 60000))]> db in
  lookup_live t1 db key = None →
  t1 ≤ t2 → t2 ≤ t3 → t3 ≤ t4 → t4 < t1 + 60000 →
  handleRateLimit t1 healthy hashedIp route opts (Guard db lg) = (Ret true, Guard db1 lg) ∧
  handleRateLimit t2 healthy hashedIp route opts (Guard db1 lg) = (Ret true, Guard db2 lg) ∧
  handleRateLimit t3 healthy hashedIp route opts (Guard db2 lg) = (Ret true, Guard db3 lg) ∧
  (∃ lg',
     handleRateLimit t4 healthy hashedIp route opts (Guard db3 lg)
       = (Throw (HttpException
                   {| statusCode := 429;
                      message := "Too many requests, please try again later.";
                      limit' := 3;
                      current := 3;
                      remainingRequests := 0;
                      nextValidRequestTime := t4 + redis_ttl t4 db3 key * 1000 |} 429),
          Guard db3 lg')) ∧
  redis_ttl t4 db3 key = (t3 + 60000 - t4 + 500) / 1000.
Proof.
  intros key opts db1 db2 db3 Hfresh H12 H23 H34 H41.
  assert (Hlive : ∀ t t' v, t < t' + 60000 →
            lookup_live t (<[key := REntry v (Some (t' + 60000))]> db) key
              = Some (REntry v (Some (t' + 60000)))).
  { intros t t' v Ht. rewrite lookup_live_insert. unfold live. cbn.
    by destruct (Z.ltb_spec t (t' + 60000)); [|lia]. }
  split; [|split; [|split; [|split]]].
  - rewrite allow_below; fold key; cbn [redis logs].
    + by rewrite incr_expire_absent.
    + unfold redis_get. by rewrite Hfresh.
  - rewrite (admitted_request_sets_expiry _ _ _ _ _ (REntry "1" (Some (t1 + 60000))) 1);
      fold key; cbn [redis logs]; try done.
    + unfold db1. by rewrite insert_insert_eq.
    + apply Hlive. lia.
  - rewrite (admitted_request_sets_expiry _ _ _ _ _ (REntry "2" (Some (t2 + 60000))) 2);
      fold key; cbn [redis logs]; try done.
    + unfold db2. by rewrite insert_insert_eq.
    + apply Hlive. lia.
  - assert (Hcount : count_of (redis_get t4 db3 key) = Int 3).
    { unfold redis_get, db3. by rewrite Hlive by lia. }
    eexists. rewrite reject_at_limit; fold key; cbn [redis logs]; try done.
    + by rewrite Hcount.
    + by rewrite Hcount.
  - unfold redis_ttl, db3. rewrite Hlive by lia. done.
Qed.

Lemma four_requests_limit_3_witness :
  let key := rate_limit_key "h" "GET:/tasks" in
  let db3 := <[key := REntry "3" (Some (2000 + 60000))]> ∅ in
  lookup_live 0 ∅ key = None ∧
  (0 ≤ 1000 ∧ 1000 ≤ 2000 ∧ 2000 ≤ 3000 ∧ 3000 < 0 + 60000) ∧
  ∃ lg',
    handleRateLimit 3000 healthy "h" "GET:/tasks" (Options 3 60000) (Guard db3 [])
      = (Throw (HttpException
                  (Response 429 "Too many requests, please try again later." 3 3 0
                     (3000 + redis_ttl 3000 db3 key * 1000)) 429),
         Guard db3 lg').
Proof.
  intros key db3. split; [reflexivity|]. split; [lia|].
  apply (four_requests_limit_3 "h" "GET:/tasks" ∅ [] 0 1000 2000 3000);
    [reflexivity | lia | lia | lia | lia].
Defined.

(** C3.  Fail open.  Whichever Redis call of the admission check fails --
    the counter read, the TTL read of the rejection branch, or the
    INCR/EXPIRE transaction -- the guard logs the error and returns [true],
    with the database as it was.  The 429 exception, raised inside the same
    try block, does leave the guard: whenever both reads succeed and the
    count read is at or above the limit, it is thrown, whatever the state
    of the transaction, and the database is as it was.  Nothing else is
    ever thrown, and a request that reads a count below the limit and whose
    transaction goes through is admitted. *)
Theorem fail_open now fl hashedIp route opts g :
  let key := rate_limit_key hashedIp route in
  let r := handleRateLimit now fl hashedIp route opts g in
  let count := count_of (redis_get now (redis g) key) in
  let at_limit := number_ge count (limit opts) in
  let allowed_and_logged e :=
    r = (Ret true,
         Guard (redis g)
           (logs g ++ [Log LError ("Error in rate limit check: " +:+ errorMessage e)
                         (errorStack e)])) in
  let rejection :=
    HttpException
      (Response 429 "Too many requests, please try again later."
         (limit opts) count 0 (now + redis_ttl now (redis g) key * 1000)) 429 in
  (∀ e, on_get fl = Some e → allowed_and_logged e) ∧
  (∀ e, on_get fl = None → at_limit = true → on_ttl fl = Some e → allowed_and_logged e) ∧
  (∀ e, on_get fl = None → at_limit = false → on_exec fl = Some e → allowed_and_logged e) ∧
  (on_get fl = None → on_ttl fl = None → at_limit = true →
     fst r = Throw rejection ∧ redis (snd r) = redis g) ∧
  (on_get fl = None → at_limit = false → on_exec fl = None → fst r = Ret true) ∧
  (fst r = Ret true ∨
   fst r = Throw rejection ∧ on_get fl = None ∧ on_ttl fl = None ∧ at_limit = true).
Proof.
  intros key r count at_limit ok rejection. subst r ok.
  split; [|split; [|split; [|split; [|split]]]].
  - intros e Hg. unfold handleRateLimit, try_catch, bind, redis_call. by rewrite Hg.
  - intros e Hg Hc Ht. unfold handleRateLimit, try_catch, bind, redis_call.
    rewrite Hg. cbn. fold key count at_limit. by rewrite Hc, Ht.
  - intros e Hg Hc He. unfold handleRateLimit, try_catch, bind, redis_call.
    rewrite Hg. cbn. fold key count at_limit. by rewrite Hc, He.
  - intros Hg Ht Hc. by rewrite reject_at_limit.
  - intros Hg Hc He. unfold handleRateLimit, try_catch, bind, redis_call.
    rewrite Hg. cbn. fold key count at_limit. rewrite Hc, He. cbn.
    by destruct (redis_incr_expire _ _ _ _).
  - destruct (on_get fl) as [e|] eqn:Hg.
    { left. unfold handleRateLimit, try_catch, bind, redis_call. by rewrite Hg. }
    destruct at_limit eqn:Hc.
    + destruct (on_ttl fl) as [e|] eqn:Ht.
      * left. unfold handleRateLimit, try_catch, bind, redis_call.
        rewrite Hg. cbn. fold key count at_limit. by rewrite Hc, Ht.
      * right. by rewrite reject_at_limit.
    + left. unfold handleRateLimit, try_catch, bind, redis_call.
      rewrite Hg. cbn. fold key count at_limit. rewrite Hc.
      destruct (on_exec fl); [done|]. cbn. by destruct (redis_incr_expire _ _ _ _).
Qed.

Lemma fail_open_witness :
  let down := ErrorObj "connect ECONNREFUSED 127.0.0.1:6379" None in
  let key := rate_limit_key "h" "GET:/tasks" in
  let g := Guard {[ key := REntry "3" (Some 60000) ]} [] in
  (on_get (Faults None (Some down) None) = None ∧
   handleRateLimit 1000 (Faults None (Some down) None) "h" "GET:/tasks" (Options 3 60000) g
     = (Ret true,
        Guard (redis g)
          [Log LError "Error in rate limit check: connect ECONNREFUSED 127.0.0.1:6379" None])) ∧
  (on_get (Faults None None (Some down)) = None ∧
   on_ttl (Faults None None (Some down)) = None ∧
   number_ge (count_of (redis_get 1000 (redis g) key)) 3 = true ∧
   fst (handleRateLimit 1000 (Faults None None (Some down)) "h" "GET:/tasks"
          (Options 3 60000) g)
     = Throw (HttpException
                (Response 429 "Too many requests, please try again later." 3 3 0 60000) 429)).
Proof.
  intros down key g. split.
  - split; [reflexivity|].
    destruct (fail_open 1000 (Faults None (Some down) None) "h" "GET:/tasks" (Options 3 60000) g)
      as (_ & Httl & _).
    apply (Httl down); reflexivity.
  - split; [reflexivity|]. split; [reflexivity|]. split; [reflexivity|].
    destruct (fail_open 1000 (Faults None None (Some down)) "h" "GET:/tasks" (Options 3 60000) g)
      as (_ & _ & _ & Hrej & _).
    apply Hrej; reflexivity.
Defined.
End RateLimitProofs.

(** * Properties of the cache service *)
Module CacheProofs.
Import Cache.

(** ** Rules for [hoare] *)
Section Rules.
Context {A B : Type}.
Implicit Types (P : world → Prop) (R : fault → world → Prop).

Lemma hoare_ret P (a : A) (Q : A → world → Prop) R :
  (∀ w, P w → Q a w) → hoare P (ret a) Q R.
Proof. intros H w Hw. by apply H. Qed.

Lemma hoare_throw P e (Q : A → world → Prop) R :
  (∀ w, P w → R e w) → hoare P (throw e) Q R.
Proof. intros H w Hw. by apply H. Qed.

Lemma hoare_bind P (m : M fault world A) (k : A → M fault world B)
    (Q' : A → world → Prop) (Q : B → world → Prop) R :
  hoare P m Q' R → (∀ a, hoare (Q' a) (k a) Q R) → hoare P (bind m k) Q R.
Proof.
  intros Hm Hk w Hw. specialize (Hm w Hw). unfold bind.
  destruct (m w) as [[a|e] w']; [by apply Hk | done].
Qed.

Lemma hoare_try P (m : M fault world A) h (Q : A → world → Prop)
    (R' : fault → world → Prop) R :
  hoare P m Q R' → (∀ e, hoare (R' e) (h e) Q R) → hoare P (try_catch m h) Q R.
Proof.
  intros Hm Hh w Hw. specialize (Hm w Hw). unfold try_catch.
  destruct (m w) as [[a|e] w']; [done | by apply Hh].
Qed.

Lemma hoare_conseq P P' (m : M fault world A) (Q Q' : A → world → Prop) R R' :
  hoare P' m Q' R' → (∀ w, P w → P' w) → (∀ a w, Q' a w → Q a w) →
  (∀ e w, R' e w → R e w) → hoare P m Q R.
Proof.
  intros Hm HP HQ HR w Hw. specialize (Hm w (HP w Hw)).
  destruct (m w) as [[a|e] w']; auto.
Qed.

Lemma hoare_gets P (f : world → A) (Q : A → world → Prop) R :
  (∀ w, P w → Q (f w) w) → hoare P (gets f) Q R.
Proof. intros H w Hw. by apply H. Qed.
End Rules.

Lemma hoare_modify P f (Q : unit → world → Prop) R :
  (∀ w, P w → Q tt (f w)) → hoare P (modify f) Q R.
Proof. intros H w Hw. by apply H. Qed.

Section Frame.
Variable I : world → Prop.
Hypothesis I_keys : on_keys I.

Lemma keep_logger lv msg R : hoare I (logger lv msg) (λ _, I) R.
Proof. apply hoare_modify. intros w. by apply I_keys. Qed.

(** Rendering a key changes nothing, and throws for a Symbol only. *)
Lemma keep_show key :
  hoare I (show key) (λ _, I) (λ e w, I w ∧ key = ASymbol ∧ e = symbol_error).
Proof. intros w Hw. by destruct key. Qed.

Lemma keep_clone v : hoare I (clone v) (λ _, I) (λ _, I).
Proof.
  intros w Hw. unfold clone.
  destruct (JSON_stringify _ _) as [[j|]|]; try done.
  destruct (JSON_parse _ _). revert Hw. by apply I_keys.
Qed.

Lemma keep_cm_set flt now key v ttl : hoare I (cm_set now flt key v ttl) (λ _, I) (λ _, I).
Proof.
  intros w Hw. unfold cm_set, cm_call. destruct (flt _ _); [done|].
  revert Hw. by apply I_keys.
Qed.

Lemma keep_cm_get absent now flt key : hoare I (cm_get absent now flt key) (λ _, I) (λ _, I).
Proof. intros w Hw. unfold cm_get, cm_call. by destruct (flt _ _). Qed.

Lemma keep_cm_del flt key : hoare I (cm_del flt key) (λ _, I) (λ _, I).
Proof.
  intros w Hw. unfold cm_del, cm_call. destruct (flt _ _); [done|].
  revert Hw. by apply I_keys.
Qed.

Lemma keep_for_each {A} (f : A → M fault world unit) xs R :
  (∀ x, hoare I (f x) (λ _, I) R) → hoare I (for_each f xs) (λ _, I) R.
Proof.
  intros Hf. induction xs as [|x xs IH]; [by apply hoare_ret|].
  cbn. eapply hoare_bind; [apply Hf | done].
Qed.

Lemma keep_Array_map {A B} (f : A → M fault world B) xs R :
  (∀ x, hoare I (f x) (λ _, I) R) → hoare I (Array_map f xs) (λ _, I) R.
Proof.
  intros Hf. induction xs as [|x xs IH]; [by apply hoare_ret|].
  cbn. eapply hoare_bind; [apply Hf | intros y].
  eapply hoare_bind; [apply IH | intros ys]. by apply hoare_ret.
Qed.

Lemma keep_async {A} (m : M fault world A) R R' :
  hoare I m (λ _, I) (λ e w, I w ∧ R' e w) → hoare I (async m) (λ _, I) R.
Proof.
  intros Hm w Hw. specialize (Hm w Hw). unfold async.
  destruct (m w) as [[a|e] w']; [done | by destruct Hm].
Qed.

Lemma keep_Promise_all {A} (ps : list (outcome fault A)) :
  hoare I (Promise_all ps) (λ _, I) (λ _, I).
Proof. intros w Hw. unfold Promise_all. by destruct (settled ps). Qed.

(** ** Every operation keeps such an invariant, and throws for a Symbol
    key only *)
Variable NODE_ENV : option string.
Variable absent : missing.
Variable now : Z.
Variable flt : cm_op → string → option fault.
Hypothesis I_add : ∀ w s,
  I w → I (set_cachedKeys (set_add (namespace NODE_ENV +:+ s) (cachedKeys w)) w).
Hypothesis I_delete : ∀ w k, I w → I (set_cachedKeys (set_delete k (cachedKeys w)) w).
Hypothesis I_clear : ∀ w, I w → I (set_cachedKeys [] w).

Local Abbreviation keeps key m :=
  (hoare I m (λ _, I) (λ e w, I w ∧ key = ASymbol ∧ e = symbol_error)).
Local Abbreviation keeps_all m := (hoare I m (λ _, I) (λ _, I)).

Lemma keep_getNamespacedKey key :
  hoare I (getNamespacedKey NODE_ENV key)
    (λ nk w, I w ∧ ∃ s, nk = namespace NODE_ENV +:+ s) (λ _, I).
Proof.
  intros w Hw. destruct key as [[| | | |s|]|]; try done.
  destruct s; [done|]. cbn. eauto.
Qed.

Lemma set_keeps key value ttlSeconds : keeps key (set NODE_ENV now flt key value ttlSeconds).
Proof.
  apply hoare_try with (R' := λ _, I).
  - eapply hoare_bind; [apply keep_getNamespacedKey|]. intros nk.
    apply hoare_bind with (Q' := λ _ w, I w ∧ ∃ s, nk = namespace NODE_ENV +:+ s).
    { intros w [Hw Hnk]. destruct value; try done.
      pose proof (keep_clone (JRef l) w Hw) as Hc.
      destruct (clone _ w) as [[?|?] ?]; done. }
    intros v.
    apply hoare_bind with (Q' := λ _ w, I w ∧ ∃ s, nk = namespace NODE_ENV +:+ s).
    { intros w [Hw Hnk]. pose proof (keep_cm_set flt now nk v (ttlSeconds * 1000) w Hw) as Hc.
      destruct (cm_set _ _ _ _ _ w) as [[?|?] ?]; done. }
    intros ?. eapply hoare_bind with (Q' := λ _, I).
    { apply hoare_modify. intros w [Hw [s ->]]. by apply I_add. }
    intros ?. apply keep_logger.
  - intros e. eapply hoare_bind; [apply keep_show|]. intros k. apply keep_logger.
Qed.

Lemma get_keeps key : keeps key (get NODE_ENV absent now flt key).
Proof.
  apply hoare_try with (R' := λ _, I).
  - eapply hoare_bind; [apply keep_getNamespacedKey|]. intros nk.
    apply hoare_bind with (Q' := λ _, I).
    { intros w [Hw ?]. pose proof (keep_cm_get absent now flt nk w Hw) as Hc.
      destruct (cm_get _ _ _ _ w) as [[?|?] ?]; done. }
    intros v. destruct v; try by apply hoare_ret. apply keep_clone.
  - intros e. eapply hoare_bind; [apply keep_show|]. intros k.
    eapply hoare_bind; [apply keep_logger|]. intros ?. by apply hoare_ret.
Qed.

Lemma delete_keeps key : keeps key (delete NODE_ENV flt key).
Proof.
  apply hoare_try with (R' := λ _, I).
  - eapply hoare_bind; [apply keep_getNamespacedKey|]. intros nk.
    apply hoare_bind with (Q' := λ _, I).
    { intros w [Hw ?]. pose proof (keep_cm_del flt nk w Hw) as Hc.
      destruct (cm_del _ _ w) as [[?|?] ?]; done. }
    intros ?. eapply hoare_bind with (Q' := λ _, I).
    { apply hoare_modify. intros w Hw. by apply I_delete. }
    intros ?. eapply hoare_bind; [apply keep_logger|]. intros ?. by apply hoare_ret.
  - intros e. eapply hoare_bind; [apply keep_show|]. intros k.
    eapply hoare_bind; [apply keep_logger|]. intros ?. by apply hoare_ret.
Qed.

Lemma has_keeps key : keeps key (has NODE_ENV absent now flt key).
Proof.
  apply hoare_try with (R' := λ _, I).
  - eapply hoare_bind; [apply keep_getNamespacedKey|]. intros nk.
    apply hoare_bind with (Q' := λ _, I).
    { intros w [Hw ?]. pose proof (keep_cm_get absent now flt nk w Hw) as Hc.
      destruct (cm_get _ _ _ _ w) as [[?|?] ?]; done. }
    intros v. by apply hoare_ret.
  - intros e. eapply hoare_bind; [apply keep_show|]. intros k.
    eapply hoare_bind; [apply keep_logger|]. intros ?. by apply hoare_ret.
Qed.

Lemma clear_keeps : hoare I (clear flt) (λ _, I) (λ _ _, False).
Proof.
  apply hoare_try with (R' := λ _ _, False); [|by intros e w []].
  eapply hoare_bind with (Q' := λ _, I); [by apply hoare_gets|]. intros keys.
  eapply hoare_bind with (Q' := λ _, I).
  { apply keep_for_each. intros k.
    eapply hoare_try; [apply keep_cm_del|]. intros e. apply keep_logger. }
  intros ?. eapply hoare_bind with (Q' := λ _, I).
  { apply hoare_modify. intros w Hw. by apply I_clear. }
  intros ?. apply keep_logger.
Qed.

Lemma mset_keeps entries ttlSeconds : keeps_all (mset NODE_ENV now flt entries ttlSeconds).
Proof.
  destruct entries as [v|es]; [by apply hoare_throw|].
  cbn. eapply hoare_bind with (Q' := λ _, I).
  - apply keep_Array_map. intros [msg|key value]; [by apply hoare_throw|].
    eapply keep_async. apply set_keeps.
  - intros ps. eapply hoare_bind; [apply keep_Promise_all|]. intros ?. by apply hoare_ret.
Qed.

Lemma mget_keeps keys : keeps_all (mget NODE_ENV absent now flt keys).
Proof.
  destruct keys as [v|ks]; [by apply hoare_throw|].
  cbn. eapply hoare_bind with (Q' := λ _, I).
  - apply keep_Array_map. intros key.
    apply keep_async with (R' := λ e _, key = ASymbol ∧ e = symbol_error).
    eapply hoare_bind; [apply get_keeps|]. intros v. by apply hoare_ret.
  - intros ps. eapply hoare_bind; [apply keep_Promise_all|]. intros ?.
    eapply hoare_bind with (Q' := λ _, I); [by apply hoare_gets|]. intros ?.
    by apply hoare_ret.
Qed.
End Frame.


(** The invariant of the tracking set. *)
Lemma tracked_ok_on_keys NODE_ENV : on_keys (tracked_ok NODE_ENV).
Proof. intros w w' H. unfold tracked_ok. by rewrite H. Qed.

Lemma prefix_app (p s : string) : String.prefix p (p +:+ s) = true.
Proof.
  induction p as [|c p IH].
  - by destruct s.
  - change (String c p +:+ s) with (String c (p +:+ s)). simpl.
    destruct (ascii_dec c c); [apply IH | done].
Qed.

Lemma tracked_ok_add NODE_ENV w s :
  tracked_ok NODE_ENV w →
  tracked_ok NODE_ENV (set_cachedKeys (set_add (namespace NODE_ENV +:+ s) (cachedKeys w)) w).
Proof.
  unfold tracked_ok, set_add. cbn. intros H. case_decide; [done|].
  apply Forall_app. split; [done|]. apply Forall_singleton, prefix_app.
Qed.

Lemma tracked_ok_delete NODE_ENV w k :
  tracked_ok NODE_ENV w → tracked_ok NODE_ENV (set_cachedKeys (set_delete k (cachedKeys w)) w).
Proof.
  unfold tracked_ok, set_delete. cbn. rewrite !Forall_forall.
  intros H x [_ Hx]%list_elem_of_filter. by apply H.
Qed.

Lemma tracked_ok_clear NODE_ENV w :
  tracked_ok NODE_ENV w → tracked_ok NODE_ENV (set_cachedKeys [] w).
Proof. intros ?. apply Forall_nil_2. Qed.


(** What an operation keeps, it keeps whether it returns or throws. *)
Lemma kept {A} (I : world → Prop) (m : M fault world A) R w :
  hoare I m (λ _, I) R → (∀ e w', R e w' → I w') → I w → I (snd (m w)).
Proof.
  intros H HR Hw. specialize (H w Hw). destruct (m w) as [[a|e] w']; cbn; eauto.
Qed.


(** Case analysis through the body of an operation. *)
Ltac cases :=
  repeat (cbn -[set_add set_delete namespace String.append ToString JSON_stringify JSON_parse
                number_text];
          match goal with
          | |- context [match ?x with _ => _ end] =>
              lazymatch x with
              | context [match _ with _ => _ end] => fail
              | _ => destruct x eqn:?
              end
          end);
  cbn -[set_add set_delete namespace String.append ToString JSON_stringify JSON_parse
        number_text].

Lemma set_cachedKeys_cases NODE_ENV now flt key value ttlSeconds w :
  let w' := snd (set NODE_ENV now flt key value ttlSeconds w) in
  cachedKeys w' = cachedKeys w ∨
  ∃ s, key = JStr s ∧ s ≠ "" ∧
       cachedKeys w' = set_add (namespace NODE_ENV +:+ s) (cachedKeys w).
Proof.
  unfold set, try_catch, bind, getNamespacedKey, clone, cm_set, cm_call, modify, logger,
    show, gets, ret, throw.
  cases; simplify_eq; eauto.
Qed.

Lemma delete_cachedKeys_cases NODE_ENV flt key w :
  let w' := snd (delete NODE_ENV flt key w) in
  cachedKeys w' = cachedKeys w ∨
  ∃ s, key = JStr s ∧ s ≠ "" ∧
       cachedKeys w' = set_delete (namespace NODE_ENV +:+ s) (cachedKeys w).
Proof.
  unfold delete, try_catch, bind, getNamespacedKey, cm_del, cm_call, modify, logger,
    show, gets, ret, throw.
  cases; simplify_eq; eauto.
Qed.

Ltac open_ops :=
  unfold set, get, delete, has, try_catch, bind, getNamespacedKey, clone,
    cm_set, cm_get, cm_del, cm_call, modify, logger, show, gets, ret, throw.




(** ** The calls of [mset] and [mget] *)

Lemma Array_map_async {A B} (f : A → M fault world (outcome fault B)) m x xs w :
  f x = async m →
  Array_map f (x :: xs) w
    = match Array_map f xs (snd (m w)) with
      | (Ret ps, w2) => (Ret (fst (m w) :: ps), w2)
      | (Throw e, w2) => (Throw e, w2)
      end.
Proof.
  intros Hf. cbn [Array_map]. unfold bind at 1. rewrite Hf. unfold async.
  destruct (m w) as [r w1]. unfold bind. cbn [fst snd].
  by destruct (Array_map f xs w1) as [[ps|e] w2].
Qed.

Lemma settled_app_throw {A} (rs : list A) e (ps : list (outcome fault A)) :
  settled ((Ret <$> rs) ++ Throw e :: ps) = Throw e.
Proof. induction rs as [|r rs IH]; [done|]. cbn. by rewrite IH. Qed.

Lemma settled_returned {A} (rs : list A) : settled (Ret (E := fault) <$> rs) = Ret rs.
Proof. induction rs as [|r rs IH]; [done|]. cbn. by rewrite IH. Qed.






(** C9.  Every element of [cachedKeys] begins with
    ["taskflow:" + environment + ":"]: so it is when the service is
    constructed, and every operation keeps it so, whether it returns or
    throws.  [set] of a non-empty string key adds the namespaced form of
    the key, and nothing else, whenever the value can be stored (it is not
    an object, or it serialises) and the cache manager takes the write;
    in every other case it leaves the set as it is.  [delete] of a
    non-empty string key removes the namespaced form of the key, and
    nothing else, whenever the cache manager's [del] goes through; in
    every other case it leaves the set as it is.  [clear] leaves the set
    empty. *)
Theorem tracked_keys_namespaced NODE_ENV absent now flt :
  let nk s := namespace NODE_ENV +:+ s in
  let storable w (value : jsval) :=
    ∀ l, value = JRef l → ∃ j, JSON_stringify (heap w) value = Some (Some j) in
  tracked_ok NODE_ENV fresh ∧
  (∀ w, tracked_ok NODE_ENV w →
     (∀ key value ttl, tracked_ok NODE_ENV (snd (set NODE_ENV now flt key value ttl w))) ∧
     (∀ key, tracked_ok NODE_ENV (snd (get NODE_ENV absent now flt key w))) ∧
     (∀ key, tracked_ok NODE_ENV (snd (delete NODE_ENV flt key w))) ∧
     tracked_ok NODE_ENV (snd (clear flt w)) ∧
     (∀ key, tracked_ok NODE_ENV (snd (has NODE_ENV absent now flt key w))) ∧
     (∀ entries ttl, tracked_ok NODE_ENV (snd (mset NODE_ENV now flt entries ttl w))) ∧
     (∀ keys, tracked_ok NODE_ENV (snd (mget NODE_ENV absent now flt keys w)))) ∧
  (* set adds *)
  (∀ w s value ttl,
     let w' := snd (set NODE_ENV now flt (JStr s) value ttl w) in
     s ≠ "" → flt OpSet (nk s) = None → storable w value →
     cachedKeys w' = set_add (nk s) (cachedKeys w) ∧
     nk s ∈ cachedKeys w' ∧
     (∀ k, k ≠ nk s → (k ∈ cachedKeys w' ↔ k ∈ cachedKeys w))) ∧
  (∀ w key value ttl,
     let w' := snd (set NODE_ENV now flt key value ttl w) in
     (∀ s, key = JStr s → s = "" ∨ is_Some (flt OpSet (nk s)) ∨ ¬ storable w value) →
     cachedKeys w' = cachedKeys w) ∧
  (* delete removes *)
  (∀ w s,
     let w' := snd (delete NODE_ENV flt (JStr s) w) in
     s ≠ "" → flt OpDel (nk s) = None →
     cachedKeys w' = set_delete (nk s) (cachedKeys w) ∧
     (nk s ∉ cachedKeys w') ∧
     (∀ k, k ≠ nk s → (k ∈ cachedKeys w' ↔ k ∈ cachedKeys w))) ∧
  (∀ w key,
     let w' := snd (delete NODE_ENV flt key w) in
     (∀ s, key = JStr s → s = "" ∨ is_Some (flt OpDel (nk s))) →
     cachedKeys w' = cachedKeys w) ∧
  (* clear empties *)
  (∀ w, cachedKeys (snd (clear flt w)) = []).
Proof.
  intros nk storable.
  pose proof (tracked_ok_on_keys NODE_ENV) as K.
  pose proof (tracked_ok_add NODE_ENV) as Ka.
  pose proof (tracked_ok_delete NODE_ENV) as Kd.
  pose proof (tracked_ok_clear NODE_ENV) as Kc.
  split; [apply Forall_nil_2|]. split; [|split; [|split; [|split; [|split]]]].
  - intros w Hw. repeat split; intros.
    + eapply kept; [by apply set_keeps | by intros ? ? [? _] | done].
    + eapply kept; [by apply (get_keeps _ K NODE_ENV absent) | by intros ? ? [? _] | done].
    + eapply kept; [by apply delete_keeps | by intros ? ? [? _] | done].
    + eapply kept; [by apply clear_keeps | done | done].
    + eapply kept; [by apply (has_keeps _ K NODE_ENV absent) | by intros ? ? [? _] | done].
    + eapply kept; [by apply mset_keeps | done | done].
    + eapply kept; [by apply (mget_keeps _ K NODE_ENV absent) | done | done].
  - intros w s value ttl w' Hs Hf Hv.
    assert (Hadd : cachedKeys w' = set_add (nk s) (cachedKeys w)).
    { subst w'. open_ops. destruct s; [done|]. fold (nk (String a s)).
      destruct value as [| | b | n | s' | l]; try (by rewrite Hf).
      destruct (Hv l eq_refl) as [j Hj]. rewrite Hj.
      destruct (JSON_parse j _). cbn. by rewrite Hf. }
    rewrite Hadd. split; [done|]. unfold set_add. case_decide as Hin.
    + split; [done|]. done.
    + split; [apply elem_of_app; right; by left|].
      intros k Hk. rewrite elem_of_app, list_elem_of_singleton. tauto.
  - intros w key value ttl w' Hbad. subst w'.
    destruct key as [[| | | |s|]|]; try done.
    destruct s as [|a s]; [done|].
    destruct (Hbad _ eq_refl) as [?|[[e He]|Hv]]; [done| |].
    + open_ops. fold (nk (String a s)). rewrite He. cases; simplify_eq; done.
    + open_ops. fold (nk (String a s)).
      destruct value as [| | b | n | s' | l]; try (exfalso; apply Hv; by intros l).
      destruct (JSON_stringify (heap w) (JRef l)) as [[j|]|] eqn:Hj; try done.
      exfalso. apply Hv. intros l' _. eauto.
  - intros w s w' Hs Hf.
    assert (Hdel : cachedKeys w' = set_delete (nk s) (cachedKeys w)).
    { subst w'. open_ops. destruct s; [done|]. fold (nk (String a s)). by rewrite Hf. }
    rewrite Hdel. unfold set_delete. split; [done|]. split.
    + intros [Hne _]%list_elem_of_filter. by apply Hne.
    + intros k Hk. rewrite list_elem_of_filter. tauto.
  - intros w key w' Hbad. subst w'.
    destruct key as [[| | | |s|]|]; try done.
    destruct s as [|a s]; [done|].
    destruct (Hbad _ eq_refl) as [?|[e He]]; [done|].
    open_ops. fold (nk (String a s)). by rewrite He.
  - intros w.
    assert (H : hoare (λ _, True) (clear flt) (λ _ w', cachedKeys w' = []) (λ _ _, False)).
    { apply hoare_try with (R' := λ _ _, False); [|by intros e w0 []].
      eapply hoare_bind with (Q' := λ _ _, True); [by apply hoare_gets|]. intros keys.
      eapply hoare_bind with (Q' := λ _ _, True).
      { apply (keep_for_each (λ _, True)).
        intros k. eapply hoare_try with (R' := λ _ _, True).
        - apply hoare_conseq with (P' := λ _, True) (Q' := λ _ _, True) (R' := λ _ _, True);
            try done. by apply keep_cm_del.
        - intros e. by apply keep_logger. }
      intros ?. eapply hoare_bind with (Q' := λ _ w', cachedKeys w' = []).
      { by apply hoare_modify. }
      intros ?. by apply hoare_modify. }
    specialize (H w Logic.I). by destruct (clear flt w) as [[?|?] ?].
Qed.

Lemma tracked_keys_namespaced_witness :
  let w := World [] ∅ ["taskflow:development:a"] [] in
  tracked_ok None w ∧
  tracked_ok None (snd (set None 0 no_faults (JStr "b") (JNum 2) 300 w)) ∧
  cachedKeys (snd (set None 0 no_faults (JStr "b") (JNum 2) 300 w))
    = ["taskflow:development:a"; "taskflow:development:b"] ∧
  cachedKeys (snd (delete None no_faults (JStr "a") w)) = [].
Proof.
  intros w.
  assert (Hw : tracked_ok None w) by (apply Forall_singleton; reflexivity).
  destruct (tracked_keys_namespaced None AsNull 0 no_faults)
    as (_ & Hkeep & Hadd & _ & Hdel & _).
  split; [exact Hw|]. split; [apply (Hkeep w Hw)|]. split.
  - destruct (Hadd w "b" (JNum 2) 300) as (-> & _);
      [discriminate | reflexivity | intros l H; discriminate H | reflexivity].
  - destruct (Hdel w "a") as (-> & _); [discriminate | reflexivity | reflexivity].
Defined.




(** On a miss [get] hands on what the cache manager resolved to. *)
Lemma get_miss NODE_ENV absent now flt s w :
  s ≠ "" → flt OpGet (namespace NODE_ENV +:+ s) = None →
  (entries w !! (namespace NODE_ENV +:+ s) = None ∨
   ∃ ent, entries w !! (namespace NODE_ENV +:+ s) = Some ent ∧ cexpires ent ≤ now) →
  get NODE_ENV absent now flt (JStr s) w = (Ret (missing_value absent), w).
Proof.
  intros Hs Hf Hm. open_ops. destruct s; [done|]. rewrite Hf.
  destruct Hm as [-> | (ent & -> & Hexp)].
  - by destruct absent.
  - destruct (Z.ltb_spec now (cexpires ent)); [lia|]. by destruct absent.
Qed.





(** C10.  [set(k, null)] that succeeds stores [null] itself -- the branch
    that clones is for objects other than [null], the heap is untouched --
    and from then on [has(k)] returns [false], at any later time and
    whatever the cache manager does: a live entry holding [null], an
    expired entry and a failing read all answer [false], as does [has] of a
    key that was never cached. *)
Theorem has_false_after_set_null NODE_ENV now flt s ttlSeconds w :
  s ≠ "" → flt OpSet (namespace NODE_ENV +:+ s) = None →
  let nk := namespace NODE_ENV +:+ s in
  let r := set NODE_ENV now flt (JStr s) JNull ttlSeconds w in
  fst r = Ret tt ∧
  entries (snd r) !! nk = Some (CEntry JNull (now + ttlSeconds * 1000)) ∧
  heap (snd r) = heap w ∧
  (∀ absent now' flt', fst (has NODE_ENV absent now' flt' (JStr s) (snd r)) = Ret false) ∧
  (∀ absent now' flt' w0, entries w0 !! nk = None →
     fst (has NODE_ENV absent now' flt' (JStr s) w0) = Ret false).
Proof.
  intros Hs Hf nk r. subst r nk.
  assert (Hset : set NODE_ENV now flt (JStr s) JNull ttlSeconds w
            = (Ret tt,
               World (heap w)
                 (<[namespace NODE_ENV +:+ s := CEntry JNull (now + ttlSeconds * 1000)]> (entries w))
                 (set_add (namespace NODE_ENV +:+ s) (cachedKeys w))
                 (logs w ++ [Log LDebug
                    ("Cache set: " +:+ (namespace NODE_ENV +:+ s) +:+ " (TTL: " +:+ number_text ttlSeconds +:+ "s)") None]))).
  { open_ops. destruct s; [done|]. by rewrite Hf. }
  rewrite Hset. cbn [fst snd heap entries]. repeat split.
  - by rewrite lookup_insert_eq.
  - intros absent now' flt'. open_ops. destruct s; [done|].
    destruct (flt' OpGet _); [done|]. cbn [entries]. rewrite lookup_insert_eq.
    cbn [cval cexpires]. destruct (now' <? _); [done|]. by destruct absent.
  - intros absent now' flt' w0 Hnone. open_ops. destruct s; [done|].
    destruct (flt' OpGet _); [done|]. rewrite Hnone. by destruct absent.
Qed.

Lemma has_false_after_set_null_witness :
  "k" ≠ "" ∧ no_faults OpSet (namespace None +:+ "k") = None ∧
  fst (has None AsUndefined 1000 no_faults (JStr "k")
         (snd (set None 0 no_faults (JStr "k") JNull 300 fresh))) = Ret false.
Proof.
  split; [discriminate|]. split; [reflexivity|].
  pose proof (has_false_after_set_null None 0 no_faults "k" 300 fresh
                ltac:(discriminate) eq_refl) as (_ & _ & _ & H & _).
  exact (H AsUndefined 1000 no_faults).
Defined.


(** The deletes that [clear] issues, one per tracked key: a delete that
    goes through removes the entry, one that fails leaves it and is logged
    as a warning; nothing else changes. *)
Lemma clear_deletes flt keys : ∀ w,
  ∃ w',
    for_each
      (λ key, try_catch (cm_del flt key)
                (λ err, logger LWarn
                          ("Failed to delete key " +:+ key +:+ ": " +:+ errorMessage err)))
      keys w = (Ret tt, w') ∧
    heap w' = heap w ∧ cachedKeys w' = cachedKeys w ∧
    (∀ k, entries w' !! k =
            match flt OpDel k with
            | None => if decide (k ∈ keys) then None else entries w !! k
            | Some _ => entries w !! k
            end) ∧
    (∀ l, l ∈ logs w → l ∈ logs w') ∧
    (∀ k e, k ∈ keys → flt OpDel k = Some e →
       Log LWarn ("Failed to delete key " +:+ k +:+ ": " +:+ errorMessage e) None ∈ logs w').
Proof.
  induction keys as [|key keys IH]; intros w.
  - exists w. repeat split; try done.
    + intros k. destruct (flt OpDel k); [done|].
      destruct (decide (k ∈ [])) as [Hi|Hi]; [by apply elem_of_nil in Hi | done].
    + intros k e Hk. by apply elem_of_nil in Hk.
  - cbn [for_each]. unfold bind at 1, try_catch at 1, cm_del at 1, cm_call at 1.
    destruct (flt OpDel key) as [e|] eqn:Hf; cbn -[for_each].
    + destruct (IH (World (heap w) (entries w) (cachedKeys w)
                      (logs w ++ [Log LWarn
                         ("Failed to delete key " +:+ key +:+ ": " +:+ errorMessage e) None])))
        as (w' & -> & Hh & Hk & He & Hl & Hw).
      exists w'. cbn in *. repeat split; try done.
      * intros k. rewrite He. destruct (flt OpDel k) eqn:Hfk; [done|].
        destruct (decide (k ∈ keys)) as [Hi|Hi], (decide (k ∈ key :: keys)) as [Hj|Hj];
          try done.
        -- exfalso. apply Hj. by right.
        -- apply elem_of_cons in Hj as [->|?]; [congruence | done].
      * intros l Hin. apply Hl, elem_of_app. by left.
      * intros k e' [->|Hin]%elem_of_cons Hfk; [|by eapply Hw].
        simplify_eq. apply Hl, elem_of_app. right. by apply list_elem_of_singleton.
    + destruct (IH (set_entries (base.delete key (entries w)) w))
        as (w' & -> & Hh & Hk & He & Hl & Hw).
      exists w'. cbn in *. repeat split; try done.
      * intros k. rewrite He. destruct (flt OpDel k) eqn:Hfk.
        -- rewrite lookup_delete_ne; [done | congruence].
        -- destruct (decide (k ∈ keys)) as [Hi|Hi], (decide (k ∈ key :: keys)) as [Hj|Hj];
             try done.
           ++ exfalso. apply Hj. by right.
           ++ apply elem_of_cons in Hj as [->|?]; [by rewrite lookup_delete_eq | done].
           ++ apply not_elem_of_cons in Hj as [Hne _]. by rewrite lookup_delete_ne.
      * intros k e' [->|Hin]%elem_of_cons Hfk; [congruence | by eapply Hw].
Qed.

(** C7, as the code has it.  [clear] returns.  Afterwards the tracking set
    is empty, whether or not deletes failed; every tracked key whose delete
    went through is absent from the cache; a tracked key whose delete
    failed keeps its entry, and the failure is logged as a warning; entries
    under keys that were not tracked are untouched. *)
Theorem clear_empties_tracking_set flt w :
  ∃ w',
    clear flt w = (Ret tt, w') ∧
    cachedKeys w' = [] ∧
    heap w' = heap w ∧
    (∀ k, k ∈ cachedKeys w → flt OpDel k = None → entries w' !! k = None) ∧
    (∀ k e, k ∈ cachedKeys w → flt OpDel k = Some e →
       entries w' !! k = entries w !! k ∧
       Log LWarn ("Failed to delete key " +:+ k +:+ ": " +:+ errorMessage e) None ∈ logs w') ∧
    (∀ k, k ∉ cachedKeys w → entries w' !! k = entries w !! k).
Proof.
  destruct (clear_deletes flt (cachedKeys w) w) as (w1 & Hrun & Hh & Hk & He & Hl & Hw).
  unfold clear, try_catch at 1, bind, gets. rewrite Hrun. unfold modify, logger.
  eexists. split; [reflexivity|]. cbn. repeat split; try done.
  - intros k Hin Hf. rewrite He, Hf. by destruct (decide (k ∈ cachedKeys w)).
  - rewrite He. by rewrite H0.
  - apply elem_of_app. left. by eapply Hw.
  - intros k Hnin. rewrite He. destruct (flt OpDel k); [done|].
    by destruct (decide (k ∈ cachedKeys w)).
Qed.

Lemma clear_empties_tracking_set_witness :
  let nk := "taskflow:development:k" in
  let w := World [] {[ nk := CEntry (JNum 1) 300000 ]} [nk] [] in
  nk ∈ cachedKeys w ∧ no_faults OpDel nk = None ∧
  ∃ w', clear no_faults w = (Ret tt, w') ∧ cachedKeys w' = [] ∧ entries w' !! nk = None.
Proof.
  intros nk w.
  assert (Hin : nk ∈ cachedKeys w) by apply list_elem_of_here.
  split; [exact Hin|]. split; [reflexivity|].
  destruct (clear_empties_tracking_set no_faults w) as (w' & Hc & Hk & _ & Hd & _).
  exists w'. split; [exact Hc|]. split; [exact Hk|]. exact (Hd nk Hin eq_refl).
Defined.

(** C7, as the claim has it, fails: a tracked key whose delete failed is
    still in the cache after [clear], while the tracking set no longer
    knows it. *)
Lemma clear_leaves_entry_when_delete_fails :
  let nk := "taskflow:development:k" in
  let w := World [] {[ nk := CEntry (JNum 1) 300000 ]} [nk] [] in
  let flt := λ (op : cm_op) (_ : string),
               match op with
               | OpDel => Some (ErrorObj "Connection is closed." None)
               | _ => None
               end in
  let w' := snd (clear flt w) in
  fst (clear flt w) = Ret tt ∧
  cachedKeys w' = [] ∧
  entries w' !! nk = Some (CEntry (JNum 1) 300000) ∧
  ¬ (∀ k, k ∈ cachedKeys w → entries w' !! k = None).
Proof.
  intros nk w flt w'.
  assert (He : entries w' !! nk = Some (CEntry (JNum 1) 300000)) by (vm_compute; reflexivity).
  repeat split; try done.
  intros H. specialize (H nk (list_elem_of_here _ _)). congruence.
Qed.


(** ** JSON round trip *)

(** Induction on JSON trees, through the lists of elements and
    properties. *)
Lemma json_nested_ind (P : json → Prop) :
  P JsNull → (∀ b, P (JsBool b)) → (∀ n, P (JsNum n)) → (∀ s, P (JsStr s)) →
  (∀ js, Forall P js → P (JsArr js)) →
  (∀ ps, Forall (λ p, P (snd p)) ps → P (JsObj ps)) →
  ∀ j, P j.
Proof.
  intros Hnull Hbool Hnum Hstr Harr Hobj.
  fix IH 1. intros [ | b | n | s | js | ps ].
  - exact Hnull.
  - apply Hbool.
  - apply Hnum.
  - apply Hstr.
  - apply Harr. induction js as [|j js IHjs]; constructor; [apply IH | exact IHjs].
  - apply Hobj. induction ps as [|p ps IHps]; constructor; [apply IH | exact IHps].
Qed.

Lemma holds_app_l H base o1 o2 : holds H base (o1 ++ o2) → holds H base o1.
Proof. intros Hh i o Hi. apply Hh. by apply lookup_app_l_Some. Qed.

Lemma holds_app_r H base o1 o2 :
  holds H base (o1 ++ o2) → holds H (base + length o1) o2.
Proof.
  intros Hh i o Hi. rewrite <- Nat.add_assoc. apply Hh.
  rewrite lookup_app_r by lia. by replace (length o1 + i - length o1)%nat with i by lia.
Qed.

(** What [JSON.parse] built reads back, by [JSON.stringify], as the tree it
    was built from -- in every heap that holds the objects built, and with
    any budget that covers their number. *)
Lemma stringify_parse j : ∀ base objs v,
  JSON_parse j base = (objs, v) →
  ∀ H fuel, holds H base objs → (length objs ≤ fuel)%nat →
    stringify_at fuel H v = Some (Some j).
Proof.
  induction j as [ | b | n | s | js IH | ps IH ] using json_nested_ind;
    intros base objs v Hp H fuel Hh Hf; cbn in Hp; simplify_eq; try by destruct fuel.
  - (* arrays *)
    destruct ((fix go (js : list json) (base : nat) := _) js base) as [objs' vs] eqn:Hgo.
    simplify_eq. rewrite length_app in Hf. cbn in Hf.
    destruct fuel as [|fuel]; [lia|]. cbn.
    assert (Hroot : H !! (base + length objs')%nat = Some (Arr vs)).
    { apply Hh. by rewrite lookup_app_r, Nat.sub_diag. }
    rewrite Hroot. clear Hroot.
    apply holds_app_l in Hh.
    assert (Hl : (length objs' ≤ fuel)%nat) by lia. clear Hf.
    enough (mapM (λ e, match stringify_at fuel H e with
                       | Some (Some j) => Some j
                       | Some None => Some JsNull
                       | None => None
                       end) vs = Some js) as -> by done.
    revert base objs' vs Hgo Hh Hl.
    induction IH as [|j js Hj _ IHjs]; intros base objs' vs Hgo Hh Hl.
    + by simplify_eq.
    + destruct (JSON_parse j base) as [o1 v1] eqn:Hp1.
      destruct ((fix go (js : list json) (base : nat) := _) js (base + length o1)%nat)
        as [o2 vs2] eqn:Hgo2.
      simplify_eq. rewrite length_app in Hl. cbn.
      rewrite (Hj _ _ _ Hp1 H fuel) by (eauto using holds_app_l || lia). cbn.
      rewrite (IHjs _ _ _ Hgo2) by (eauto using holds_app_r || lia). done.
  - (* objects *)
    destruct ((fix go (ps : list (string * json)) (base : nat) := _) ps base)
      as [objs' vs] eqn:Hgo.
    simplify_eq. rewrite length_app in Hf. cbn in Hf.
    destruct fuel as [|fuel]; [lia|]. cbn.
    assert (Hroot : H !! (base + length objs')%nat = Some (Obj vs)).
    { apply Hh. by rewrite lookup_app_r, Nat.sub_diag. }
    rewrite Hroot. clear Hroot.
    apply holds_app_l in Hh.
    assert (Hl : (length objs' ≤ fuel)%nat) by lia. clear Hf.
    enough (mapM (λ p, match stringify_at fuel H (snd p) with
                       | Some (Some j) => Some [(fst p, j)]
                       | Some None => Some []
                       | None => None
                       end) vs = Some ((λ p, [p]) <$> ps)) as ->.
    { do 3 f_equal. generalize ps. clear. intros ps.
      induction ps as [|p ps IHps]; cbn; [done | by rewrite IHps]. }
    revert base objs' vs Hgo Hh Hl.
    induction IH as [|p ps Hp _ IHps]; intros base objs' vs Hgo Hh Hl.
    + by simplify_eq.
    + destruct (JSON_parse (snd p) base) as [o1 v1] eqn:Hp1.
      destruct ((fix go (ps : list (string * json)) (base : nat) := _) ps (base + length o1)%nat)
        as [o2 vs2] eqn:Hgo2.
      simplify_eq. rewrite length_app in Hl. cbn.
      rewrite (Hp _ _ _ Hp1 H fuel) by (eauto using holds_app_l || lia). cbn.
      rewrite (IHps _ _ _ Hgo2) by (eauto using holds_app_r || lia). by destruct p.
Qed.


(** A reference serialises to an array or an object, and parsing that
    builds at least one object, the last one, to which the result refers. *)
Lemma parse_of_ref fuel h l j base :
  stringify_at fuel h (JRef l) = Some (Some j) →
  ∃ objs' o, JSON_parse j base = (objs' ++ [o], JRef (base + length objs')%nat).
Proof.
  intros Hs. destruct fuel as [|fuel]; [done|]. cbn in Hs.
  destruct (h !! l) as [[ps|es]|]; [| |done].
  - destruct (mapM _ ps); [|done]. simplify_eq. cbn.
    destruct ((fix go (ps : list (string * json)) (base : nat) := _) _ base) as [objs' vs].
    eauto.
  - destruct (mapM _ es); [|done]. simplify_eq. cbn.
    destruct ((fix go (js : list json) (base : nat) := _) _ base) as [objs' vs].
    eauto.
Qed.

(** A heap that holds what was parsed from [j] reads it back as [j]. *)
Lemma read_back j base objs v H :
  JSON_parse j base = (objs, v) → holds H base objs →
  JSON_stringify H v = Some (Some j).
Proof.
  intros Hp Hh. apply (stringify_parse j base objs v Hp H); [done|].
  destruct objs as [|o objs _] using rev_ind; [cbn; lia|].
  rewrite length_app. cbn.
  assert (Hlast : H !! (base + length objs)%nat = Some o).
  { apply Hh. by rewrite lookup_app_r, Nat.sub_diag. }
  apply lookup_lt_Some in Hlast. lia.
Qed.

Lemma holds_app H objs : holds (H ++ objs) (length H) objs.
Proof.
  intros i o Hi. rewrite lookup_app_r by lia.
  by replace (length H + i - length H)%nat with i by lia.
Qed.

Lemma holds_same_between H H' objs :
  same_between (length H) (length (H ++ objs)) (H ++ objs) H' → holds H' (length H) objs.
Proof.
  intros Hs i o Hi. rewrite Hs.
  - by apply holds_app.
  - rewrite length_app. apply lookup_lt_Some in Hi. lia.
Qed.

(** [set] of an object that serialises: a copy is built out of new objects
    and the reference to the copy is what the cache manager gets. *)
Lemma set_stores_copy NODE_ENV now flt s l ttlSeconds w j :
  s ≠ "" → flt OpSet (namespace NODE_ENV +:+ s) = None →
  JSON_stringify (heap w) (JRef l) = Some (Some j) →
  ∃ objs root,
    JSON_parse j (length (heap w)) = (objs, JRef root) ∧ objs ≠ [] ∧
    set NODE_ENV now flt (JStr s) (JRef l) ttlSeconds w
      = (Ret tt,
         World (heap w ++ objs)
           (<[namespace NODE_ENV +:+ s := CEntry (JRef root) (now + ttlSeconds * 1000)]>
              (entries w))
           (set_add (namespace NODE_ENV +:+ s) (cachedKeys w))
           (logs w ++ [Log LDebug
              ("Cache set: " +:+ (namespace NODE_ENV +:+ s)
                 +:+ " (TTL: " +:+ number_text ttlSeconds +:+ "s)") None])).
Proof.
  intros Hs Hf Hj.
  destruct (parse_of_ref _ _ _ _ (length (heap w)) Hj) as (objs' & o & Hp).
  exists (objs' ++ [o]), (length (heap w) + length objs')%nat.
  split; [done|]. split; [by destruct objs'|].
  open_ops. destruct s; [done|]. rewrite Hj, Hp. cbn. by rewrite Hf.
Qed.

(** [get] of a live entry that refers to a parsed copy the heap still
    holds: the caller gets a reference to a second copy, built out of new
    objects; the entry and the objects there were are as before. *)
Lemma get_returns_copy NODE_ENV absent now flt s w base objs root expires j :
  s ≠ "" → flt OpGet (namespace NODE_ENV +:+ s) = None →
  entries w !! (namespace NODE_ENV +:+ s) = Some (CEntry (JRef root) expires) →
  now < expires →
  JSON_parse j base = (objs, JRef root) → holds (heap w) base objs →
  ∃ objs2 r,
    JSON_parse j (length (heap w)) = (objs2, JRef r) ∧
    (length (heap w) ≤ r < length (heap w) + length objs2)%nat ∧
    get NODE_ENV absent now flt (JStr s) w = (Ret (JRef r), set_heap (heap w ++ objs2) w).
Proof.
  intros Hs Hf He Hlive Hp Hh.
  pose proof (read_back _ _ _ _ _ Hp Hh) as Hj.
  destruct (parse_of_ref _ _ _ _ (length (heap w)) Hj) as (objs' & o & Hp2).
  exists (objs' ++ [o]), (length (heap w) + length objs')%nat.
  split; [done|]. split; [rewrite length_app; cbn; lia|].
  open_ops. destruct s; [done|]. rewrite Hf, He. cbn [cval cexpires].
  destruct (Z.ltb_spec now expires); [|lia]. by rewrite Hj, Hp2.
Qed.


(** [get] changes neither the entries, nor the tracked keys, nor any object
    there was. *)
Lemma get_frame NODE_ENV absent now flt key w :
  let w2 := snd (get NODE_ENV absent now flt key w) in
  entries w2 = entries w ∧ cachedKeys w2 = cachedKeys w ∧
  ∀ i, (i < length (heap w))%nat → heap w2 !! i = heap w !! i.
Proof.
  open_ops. cases; simplify_eq; repeat split; try done;
    intros i Hi; by rewrite lookup_app_l.
Qed.

(** What every later [get(k)] returns after [set(k, v)] stored a copy of an
    object: in any later world whose entry under the key is the one [set]
    wrote and whose heap still holds the objects of the stored copy
    (addresses [lo, hi)), [get] returns a reference to new objects that
    read as the JSON of [v] at the time of [set]. *)
Lemma get_after_set NODE_ENV absent now flt s w base objs root expires j :
  s ≠ "" → flt OpGet (namespace NODE_ENV +:+ s) = None →
  entries w !! (namespace NODE_ENV +:+ s) = Some (CEntry (JRef root) expires) →
  now < expires →
  JSON_parse j base = (objs, JRef root) → holds (heap w) base objs →
  ∃ r w2,
    get NODE_ENV absent now flt (JStr s) w = (Ret (JRef r), w2) ∧
    (length (heap w) ≤ r < length (heap w2))%nat ∧
    entries w2 = entries w ∧
    (∀ i, (i < length (heap w))%nat → heap w2 !! i = heap w !! i) ∧
    (∀ H, same_between (length (heap w)) (length (heap w2)) (heap w2) H →
          JSON_stringify H (JRef r) = Some (Some j)).
Proof.
  intros Hs Hf He Hlive Hp Hh.
  destruct (get_returns_copy NODE_ENV absent now flt s w base objs root expires j)
    as (objs2 & r & Hp2 & Hr & ->); try done.
  exists r, (set_heap (heap w ++ objs2) w). cbn. rewrite length_app.
  repeat split; try done; try lia.
  - intros i Hi. by rewrite lookup_app_l.
  - intros H HH. apply (read_back _ _ _ _ _ Hp2).
    apply holds_same_between. by rewrite length_app.
Qed.

(** C6.  Copy isolation.  [set(k, v)] of an object [v] that serialises to
    [j] returns, leaves the objects there were as they are, and stores a
    copy made of new objects (addresses [lo, hi)).
    - On write: let the heap change afterwards in any way outside the
      stored copy -- [v] and all it refers to existed before [set], so
      every later mutation through the caller's reference is such a
      change; [get(k)] still returns an object that reads as [j].
    - On read: let [r] be what a [get(k)] returned, and let the heap then
      change in any way outside the stored copy -- [r] is built of objects
      newer than the stored copy, so every mutation of [r] is such a
      change; the next [get(k)] still returns an object that reads as [j].
    Each object returned is built of objects that did not exist before the
    call, and what it reads as depends on these alone. *)
Theorem copy_isolation NODE_ENV now flt s l ttlSeconds w j :
  s ≠ "" → flt OpSet (namespace NODE_ENV +:+ s) = None →
  JSON_stringify (heap w) (JRef l) = Some (Some j) →
  let nk := namespace NODE_ENV +:+ s in
  let r1 := set NODE_ENV now flt (JStr s) (JRef l) ttlSeconds w in
  let w1 := snd r1 in
  let lo := length (heap w) in
  let hi := length (heap w1) in
  let reads_as_j absent now' flt' w' :=
    ∃ r w2,
      get NODE_ENV absent now' flt' (JStr s) w' = (Ret (JRef r), w2) ∧
      (length (heap w') ≤ r < length (heap w2))%nat ∧
      entries w2 = entries w' ∧
      (∀ i, (i < length (heap w'))%nat → heap w2 !! i = heap w' !! i) ∧
      (∀ H, same_between (length (heap w')) (length (heap w2)) (heap w2) H →
            JSON_stringify H (JRef r) = Some (Some j)) in
  fst r1 = Ret tt ∧
  (lo < hi)%nat ∧
  (∀ i, (i < lo)%nat → heap w1 !! i = heap w !! i) ∧
  (* on write *)
  (∀ h' absent now' flt',
     same_between lo hi (heap w1) h' →
     now' < now + ttlSeconds * 1000 → flt' OpGet nk = None →
     reads_as_j absent now' flt' (set_heap h' w1)) ∧
  (* on read *)
  (∀ absent now' flt' r w2 h'' absent' now'' flt'',
     get NODE_ENV absent now' flt' (JStr s) w1 = (Ret (JRef r), w2) →
     same_between lo hi (heap w2) h'' →
     now'' < now + ttlSeconds * 1000 → flt'' OpGet nk = None →
     reads_as_j absent' now'' flt'' (set_heap h'' w2)).
Proof.
  intros Hs Hf Hj nk r1 w1 lo hi reads. subst r1 w1 hi reads.
  destruct (set_stores_copy NODE_ENV now flt s l ttlSeconds w j Hs Hf Hj)
    as (objs & root & Hp & Hne & ->).
  cbn [fst snd heap entries]. fold nk. fold lo.
  assert (Hlen : (lo < length (heap w ++ objs))%nat).
  { rewrite length_app. destruct objs; [done|]. cbn. unfold lo. lia. }
  split; [done|]. split; [done|]. split; [|split].
  - intros i Hi. by rewrite lookup_app_l.
  - intros h' absent now' flt' Hsame Hlive Hf'.
    apply (get_after_set NODE_ENV absent now' flt' s _ lo objs root
             (now + ttlSeconds * 1000) j); try done.
    + cbn. apply lookup_insert_eq.
    + cbn. by apply holds_same_between.
  - intros absent now' flt' r w2 h'' absent' now'' flt'' Hget Hsame Hlive Hf''.
    pose proof (get_frame NODE_ENV absent now' flt' (JStr s)
                  (World (heap w ++ objs)
                     (<[nk := CEntry (JRef root) (now + ttlSeconds * 1000)]> (entries w))
                     (set_add nk (cachedKeys w))
                     (logs w ++ [Log LDebug
                        ("Cache set: " +:+ nk +:+ " (TTL: " +:+ number_text ttlSeconds +:+ "s)") None])))
      as (He2 & _ & Hkeep).
    rewrite Hget in He2, Hkeep. cbn [snd entries heap] in He2, Hkeep.
    apply (get_after_set NODE_ENV absent' now'' flt'' s _ lo objs root
             (now + ttlSeconds * 1000) j); try done.
    + cbn. rewrite He2. apply lookup_insert_eq.
    + cbn. apply holds_same_between. intros i Hi.
      transitivity (heap w2 !! i); [apply Hsame; lia | apply Hkeep; lia].
Qed.

Lemma copy_isolation_witness :
  let w := World [Obj [("a", JNum 1)]] ∅ [] [] in
  let w1 := snd (set None 0 no_faults (JStr "k") (JRef 0) 300 w) in
  let w2 := snd (get None AsNull 1000 no_faults (JStr "k") w1) in
  let after_write := <[0%nat := Obj [("a", JNum 99)]]> (heap w1) in
  let after_read := <[2%nat := Obj [("a", JNum 99)]]> (heap w2) in
  JSON_stringify (heap w) (JRef 0) = Some (Some (JsObj [("a", JsNum 1)])) ∧
  fst (get None AsNull 1000 no_faults (JStr "k") w1) = Ret (JRef 2) ∧
  (∃ r w3,
     get None AsNull 1000 no_faults (JStr "k") (set_heap after_write w1) = (Ret (JRef r), w3) ∧
     JSON_stringify (heap w3) (JRef r) = Some (Some (JsObj [("a", JsNum 1)]))) ∧
  (∃ r w3,
     get None AsNull 2000 no_faults (JStr "k") (set_heap after_read w2) = (Ret (JRef r), w3) ∧
     JSON_stringify (heap w3) (JRef r) = Some (Some (JsObj [("a", JsNum 1)]))).
Proof.
  intros w w1 w2 after_write after_read.
  pose proof (copy_isolation None 0 no_faults "k" 0%nat 300 w (JsObj [("a", JsNum 1)])
                ltac:(discriminate) eq_refl eq_refl) as (_ & _ & _ & Hwrite & Hread).
  split; [reflexivity|]. split; [reflexivity|]. split.
  - destruct (Hwrite after_write AsNull 1000 no_faults) as (r & w3 & Hg & _ & _ & _ & Hj);
      [ intros [|[|i]] Hi; cbn in Hi; try lia; reflexivity | lia | reflexivity | ].
    exists r, w3. split; [exact Hg|]. apply Hj. by intros i Hi.
  - destruct (Hread AsNull 1000 no_faults 2%nat w2 after_read AsNull 2000 no_faults)
      as (r & w3 & Hg & _ & _ & _ & Hj);
      [ reflexivity | intros [|[|i]] Hi; cbn in Hi; try lia; reflexivity | lia | reflexivity | ].
    exists r, w3. split; [exact Hg|]. apply Hj. by intros i Hi.
Defined.


Lemma mapM_mono {A B} (f g : A → option B) l k :
  (∀ x y, x ∈ l → f x = Some y → g x = Some y) → mapM f l = Some k → mapM g l = Some k.
Proof.
  revert k. induction l as [|x l IH]; intros k Hfg Hm; [done|].
  cbn in *. destruct (f x) as [y|] eqn:Hx; [|done]. cbn in Hm.
  destruct (mapM f l) as [k'|] eqn:Hl; [|done]. cbn in Hm. simplify_eq.
  rewrite (Hfg x y) by (done || by left). cbn.
  rewrite (IH k') by (done || intros; apply Hfg; try done; by right). done.
Qed.

(** Serialisation is stable under growth of the heap and of the budget. *)
Lemma stringify_mono fuel : ∀ h v r fuel' ext,
  stringify_at fuel h v = Some r → (fuel ≤ fuel')%nat →
  stringify_at fuel' (h ++ ext) v = Some r.
Proof.
  induction fuel as [|fuel IH]; intros h v r fuel' ext Hs Hle.
  - destruct v; try done; by destruct fuel'.
  - destruct v; try (by destruct fuel').
    destruct fuel' as [|fuel']; [lia|]. cbn in *.
    destruct (h !! l) as [o|] eqn:Hl; [|done].
    rewrite (lookup_app_l_Some _ _ _ _ Hl).
    destruct o as [ps|es].
    + destruct (mapM _ ps) as [jss|] eqn:Hm; [|done].
      erewrite mapM_mono; [done| |exact Hm].
      intros p y _ Hp. cbn in *.
      destruct (stringify_at fuel h p.2) as [o|] eqn:Ho; [|done].
      by rewrite (IH _ _ _ fuel' ext Ho) by lia.
    + destruct (mapM _ es) as [js|] eqn:Hm; [|done].
      erewrite mapM_mono; [done| |exact Hm].
      intros e y _ He. cbn in *.
      destruct (stringify_at fuel h e) as [o|] eqn:Ho; [|done].
      by rewrite (IH _ _ _ fuel' ext Ho) by lia.
Qed.

Lemma JSON_stringify_app h ext v r :
  JSON_stringify h v = Some r → JSON_stringify (h ++ ext) v = Some r.
Proof.
  intros H. eapply stringify_mono; [exact H|]. rewrite length_app. lia.
Qed.


(** One [get] of a non-empty key, from a cache manager that answers. *)
Lemma get_answers NODE_ENV absent now k w :
  k ≠ "" →
  ∃ v w',
    get NODE_ENV absent now no_faults (JStr k) w = (Ret v, w') ∧
    entries w' = entries w ∧ (∃ ext, heap w' = heap w ++ ext) ∧
    answers NODE_ENV absent now w (heap w') k v.
Proof.
  intros Hk. unfold answers.
  destruct (entries w !! (namespace NODE_ENV +:+ k)) as [e|] eqn:He.
  2:{ exists (missing_value absent), w. rewrite get_miss by (done || by left).
      repeat split; try done. by exists []; rewrite app_nil_r. }
  destruct (Z.ltb_spec now (cexpires e)) as [Hlive|Hdead].
  2:{ exists (missing_value absent), w. rewrite get_miss by (done || right; eauto).
      repeat split; try done. by exists []; rewrite app_nil_r. }
  open_ops. destruct k as [|a k]; [done|]. cbn [no_faults]. rewrite He.
  destruct (Z.ltb_spec now (cexpires e)); [|lia].
  destruct (cval e) as [| | b | n | s | l ] eqn:Hv;
    try (eexists _, _; (split; [done|]); (split; [done|]);
         (split; [by exists []; rewrite app_nil_r|done])).
  destruct (JSON_stringify (heap w) (JRef l)) as [[j|]|] eqn:Hj.
  - destruct (parse_of_ref _ _ _ _ (length (heap w)) Hj) as (objs' & o & Hp).
    rewrite Hp. eexists _, _. split; [done|]. cbn. split; [done|]. split; [by eexists|].
    intros j0 [= <-]. eexists. split; [done|].
    apply (read_back _ _ _ _ _ Hp). apply holds_app.
  - eexists _, _. split; [done|]. cbn. split; [done|].
    split; [by exists []; rewrite app_nil_r | done].
  - eexists _, _. split; [done|]. cbn. split; [done|].
    split; [by exists []; rewrite app_nil_r | done].
Qed.

Lemma answers_app NODE_ENV absent now w h' ext k v :
  answers NODE_ENV absent now w h' k v → answers NODE_ENV absent now w (h' ++ ext) k v.
Proof.
  unfold answers. destruct (entries w !! _) as [e|]; [|done].
  destruct (now <? cexpires e); [|done]. destruct (cval e); try done.
  intros H j Hj. destruct (H j Hj) as (r & -> & Hr). exists r.
  split; [done|]. by apply JSON_stringify_app.
Qed.

Lemma answers_earlier NODE_ENV absent now w w1 h' ext k v :
  entries w1 = entries w → heap w1 = heap w ++ ext →
  answers NODE_ENV absent now w1 h' k v → answers NODE_ENV absent now w h' k v.
Proof.
  unfold answers. intros -> ->. destruct (entries w !! _) as [e|]; [|done].
  destruct (now <? cexpires e); [|done]. destruct (cval e); try done.
  intros H j Hj. apply H. by apply JSON_stringify_app.
Qed.

Lemma bind_run {E S A B} (m : M E S A) (k : A → M E S B) s a s' :
  m s = (Ret a, s') → bind m k s = k a s'.
Proof. intros H. unfold bind. by rewrite H. Qed.

(** The [get]s of [mget] for a list of strings, one after the other, from
    a cache manager that answers: the promise of each is fulfilled. *)
Lemma all_get_answers NODE_ENV absent now ks : ∀ w,
  ∃ results w',
    Array_map (λ key, async (let! v := get NODE_ENV absent now no_faults key in ret (key, v)))
      ((λ k, Plain (JStr k)) <$> ks) w
      = (Ret (Ret <$> ((λ kv, (Plain (JStr kv.1), kv.2)) <$> results)), w') ∧
    entries w' = entries w ∧ (∃ ext, heap w' = heap w ++ ext) ∧
    results.*1 = ks ∧
    Forall (λ kv, kv.1 = "" ∧ kv.2 = JNull ∨
                  kv.1 ≠ "" ∧ answers NODE_ENV absent now w (heap w') kv.1 kv.2) results.
Proof.
  induction ks as [|k ks IH]; intros w.
  - exists [], w. repeat split; try done. by exists []; rewrite app_nil_r.
  - cbn [fmap list_fmap].
    rewrite (Array_map_async _
               (let! v := get NODE_ENV absent now no_faults (JStr k) in ret (Plain (JStr k), v)))
      by done.
    destruct (decide (k = "")) as [->|Hk].
    + assert (Hg : ∃ lg, get NODE_ENV absent now no_faults (JStr "") w
                = (Ret JNull, World (heap w) (entries w) (cachedKeys w) lg))
        by (by eexists).
      destruct Hg as [lg Hg].
      destruct (IH (World (heap w) (entries w) (cachedKeys w) lg))
        as (results & w' & Hrun & He & Hh & Hk & Hall).
      exists (("", JNull) :: results), w'.
      split.
      { erewrite (bind_run _ _ w) by exact Hg. cbn [ret fst snd]. by rewrite Hrun. }
      repeat split; try done; [by rewrite <- Hk | ].
      constructor; [by left|]. done.
    + destruct (get_answers NODE_ENV absent now k w Hk) as (v & w1 & Hg & He1 & [ext1 Hh1] & Ha).
      destruct (IH w1) as (results & w' & Hrun & He & [ext Hh] & Hks & Hall).
      exists ((k, v) :: results), w'.
      split.
      { erewrite (bind_run _ _ w) by exact Hg. cbn [ret fst snd]. by rewrite Hrun. }
      split; [congruence|].
      split; [exists (ext1 ++ ext); by rewrite Hh, Hh1, app_assoc|].
      split; [cbn; by rewrite Hks|].
      constructor.
      * right. split; [done|]. cbn. rewrite Hh. by apply answers_app.
      * eapply Forall_impl; [exact Hall|]. intros [k' v'] [H|[H1 H2]]; [by left|right].
        split; [done|]. by eapply answers_earlier.
Qed.

(** [Object.fromEntries]: the names are those of the entries, and each
    name has the value of one of its entries. *)
Lemma fromEntries_lookup kvs : ∀ (m0 : gmap string jsval) k,
  (∃ v, (k, v) ∈ kvs ∧ foldl (λ m kv, <[kv.1 := kv.2]> m) m0 kvs !! k = Some v) ∨
  ((k ∉ kvs.*1) ∧ foldl (λ m kv, <[kv.1 := kv.2]> m) m0 kvs !! k = m0 !! k).
Proof.
  induction kvs as [|[k0 v0] kvs IH]; intros m0 k; cbn.
  - right. split; [apply not_elem_of_nil | done].
  - destruct (IH (<[k0 := v0]> m0) k) as [(v & Hin & Hl) | [Hnin Hl]].
    + left. exists v. split; [by right | done].
    + destruct (decide (k0 = k)) as [->|Hne].
      * left. exists v0. split; [by left|]. by rewrite Hl, lookup_insert_eq.
      * right. split; [|by rewrite Hl, lookup_insert_ne].
        intros [?|?]%elem_of_cons; [congruence | done].
Qed.

(** A string names the property it is. *)
Lemma fromEntries_strings h (kvs : list (string * jsval)) :
  fromEntries h ((λ kv, (Plain (JStr kv.1), kv.2)) <$> kvs)
    = foldl (λ m kv, <[kv.1 := kv.2]> m) ∅ kvs.
Proof.
  unfold fromEntries. generalize (∅ : gmap string jsval).
  induction kvs as [|[k v] kvs IH]; intros m; [done|]. cbn [fmap list_fmap foldl]. apply IH.
Qed.

(** [mget] of a list of strings, from a cache manager that answers. *)
Lemma mget_strings NODE_ENV absent now ks w :
  ∃ results w',
    mget NODE_ENV absent now no_faults (strings ks) w
      = (Ret (foldl (λ m kv, <[kv.1 := kv.2]> m) ∅ results), w') ∧
    entries w' = entries w ∧ (∃ ext, heap w' = heap w ++ ext) ∧
    results.*1 = ks ∧
    Forall (λ kv, kv.1 = "" ∧ kv.2 = JNull ∨
                  kv.1 ≠ "" ∧ answers NODE_ENV absent now w (heap w') kv.1 kv.2) results.
Proof.
  destruct (all_get_answers NODE_ENV absent now ks w)
    as (results & w' & Hrun & He & Hh & Hks & Hall).
  exists results, w'. split; [|done].
  unfold strings, mget. erewrite bind_run by exact Hrun.
  unfold bind, Promise_all, gets, ret. by rewrite settled_returned, fromEntries_strings.
Qed.

(** C8, as the code has it.  [mget] of a list of strings, from a cache
    manager that answers, returns a mapping whose names are exactly the
    keys given -- the original keys, without the namespace.  A non-empty
    key maps to what the cache holds under its namespaced form: the value
    that was set, if its time to live has not passed (for an object, a
    copy that reads as the cached one); and for a key that was never set,
    what the cache manager resolves for a key it does not hold, as it is
    -- [null] or [undefined].  After [mset([["a",1],["b",2]])],
    [mget(["a","b","c"])] is [{a: 1, b: 2, c: null}] with a cache manager
    that resolves [null], and [{a: 1, b: 2, c: undefined}] with one that
    resolves [undefined]. *)
Theorem mget_maps_original_keys NODE_ENV absent now ks w :
  ∃ m w',
    mget NODE_ENV absent now no_faults (strings ks) w = (Ret m, w') ∧
    (∀ k, is_Some (m !! k) ↔ k ∈ ks) ∧
    (∀ k, k ∈ ks → k ≠ "" →
       ∃ v, m !! k = Some v ∧ answers NODE_ENV absent now w (heap w') k v) ∧
    (∀ k, k ∈ ks → k ≠ "" → entries w !! (namespace NODE_ENV +:+ k) = None →
       m !! k = Some (missing_value absent)) ∧
    fst (mget None absent 1000 no_faults (strings ["a"; "b"; "c"])
           (snd (mset None 0 no_faults (pairs [("a", JNum 1); ("b", JNum 2)]) 300 fresh)))
      = Ret {[ "a" := JNum 1; "b" := JNum 2; "c" := missing_value absent ]}.
Proof.
  destruct (mget_strings NODE_ENV absent now ks w)
    as (results & w' & Hrun & He & Hh & Hks & Hall).
  eexists _, w'.
  assert (Hfound : ∀ k, k ∈ ks →
            ∃ v, (k, v) ∈ results ∧
                 foldl (λ m kv, <[kv.1 := kv.2]> m) (∅ : gmap string jsval) results !! k
                   = Some v).
  { intros k Hin. destruct (fromEntries_lookup results ∅ k) as [?|[Hnin _]]; [done|].
    by rewrite Hks in Hnin. }
  split; [exact Hrun|]. split; [|split; [|split]].
  - intros k. split.
    + intros [v Hv]. destruct (fromEntries_lookup results ∅ k) as [(v' & Hin & _)|[_ Hl]].
      * rewrite <- Hks. apply list_elem_of_fmap. by exists (k, v').
      * rewrite Hl in Hv. by rewrite lookup_empty in Hv.
    + intros Hin. destruct (Hfound k Hin) as (v & _ & Hl). by exists v.
  - intros k Hin Hk. destruct (Hfound k Hin) as (v & Hkv & Hl). exists v.
    split; [done|]. rewrite Forall_forall in Hall.
    destruct (Hall _ Hkv) as [[H _]|[_ H]]; [done | exact H].
  - intros k Hin Hk Hnone. destruct (Hfound k Hin) as (v & Hkv & Hl). rewrite Hl.
    rewrite Forall_forall in Hall.
    destruct (Hall _ Hkv) as [[H _]|[_ H]]; cbn in H; [done|].
    unfold answers in H. rewrite Hnone in H. by rewrite H.
  - destruct absent; vm_compute; reflexivity.
Qed.

Lemma mget_maps_original_keys_witness :
  let w := World [] {[ "taskflow:development:a" := CEntry (JNum 1) 300000 ]}
             ["taskflow:development:a"] [] in
  ∃ m w',
    mget None AsUndefined 1000 no_faults (strings ["a"; "c"]) w = (Ret m, w') ∧
    m !! "a" = Some (JNum 1) ∧ m !! "c" = Some JUndefined.
Proof.
  intros w.
  destruct (mget_maps_original_keys None AsUndefined 1000 ["a"; "c"] w)
    as (m & w' & Hrun & _ & Hans & Hmiss & _).
  exists m, w'. split; [exact Hrun|]. split.
  - destruct (Hans "a" ltac:(by left) ltac:(discriminate)) as (v & Hv & Ha).
    rewrite Hv. f_equal. exact Ha.
  - apply (Hmiss "c"); [by right; left | discriminate | reflexivity].
Defined.

(** C8, as the claim has it, fails with a cache manager that resolves
    [undefined] for a key it does not hold: after
    [mset([["a",1],["b",2]])], [mget(["a","b","c"])] maps [c], which was
    never set, to [undefined], not to [null]. *)
Lemma mget_undefined_for_key_never_set :
  let w1 := snd (mset None 0 no_faults (pairs [("a", JNum 1); ("b", JNum 2)]) 300 fresh) in
  let r := fst (mget None AsUndefined 1000 no_faults (strings ["a"; "b"; "c"]) w1) in
  r = Ret {[ "a" := JNum 1; "b" := JNum 2; "c" := JUndefined ]} ∧
  r ≠ Ret {[ "a" := JNum 1; "b" := JNum 2; "c" := JNull ]}.
Proof.
  intros w1 r.
  assert (Hr : r = Ret {[ "a" := JNum 1; "b" := JNum 2; "c" := JUndefined ]})
    by (vm_compute; reflexivity).
  split; [exact Hr|]. rewrite Hr. intros H.
  apply (f_equal (λ o, match o with Ret m => m !! "c" | Throw _ => None end)) in H.
  vm_compute in H. discriminate H.
Qed.

End CacheProofs.

(** * Further properties of the rate-limit guard *)
Module RateLimitMore.
Import RateLimit RateLimitRuns.

Lemma lookup_live_same now (db db' : gmap string rentry) key :
  db' !! key = db !! key → lookup_live now db' key = lookup_live now db key.
Proof. unfold lookup_live. by intros ->. Qed.

(** The transaction touches its own key only. *)
Lemma incr_expire_other now db key key' secs :
  key ≠ key' → snd (redis_incr_expire now db key secs) !! key' = db !! key'.
Proof.
  intros Hne. unfold redis_incr_expire, redis_incr, redis_expire.
  repeat case_match; simplify_eq; cbn;
    rewrite ?lookup_delete_ne, ?lookup_insert_ne by done; done.
Qed.

(** A request changes no entry but that of its own key. *)
Lemma request_touches_own_key now fl hashedIp route opts g key' :
  rate_limit_key hashedIp route ≠ key' →
  redis (snd (handleRateLimit now fl hashedIp route opts g)) !! key' = redis g !! key'.
Proof.
  intros Hne. unfold handleRateLimit, try_catch, bind, redis_call.
  destruct (on_get fl); [done|]. cbn.
  destruct (number_ge _ _).
  - destruct (on_ttl fl); done.
  - destruct (on_exec fl); [done|]. cbn.
    destruct (redis_incr_expire _ _ _ _) as [rs db] eqn:Hx. cbn.
    change db with (snd (rs, db)). rewrite <- Hx. by apply incr_expire_other.
Qed.

(** The decision depends on the database through the entry of the
    request's key only. *)
Lemma decision_reads_own_key now fl hashedIp route opts g g' :
  redis g' !! rate_limit_key hashedIp route = redis g !! rate_limit_key hashedIp route →
  fst (handleRateLimit now fl hashedIp route opts g')
    = fst (handleRateLimit now fl hashedIp route opts g).
Proof.
  intros Hsame. unfold handleRateLimit, try_catch, bind, redis_call.
  destruct (on_get fl); [done|]. cbn -[lookup_live].
  unfold redis_get, redis_ttl. rewrite (lookup_live_same _ _ _ _ Hsame).
  destruct (number_ge _ _).
  - destruct (on_ttl fl); [done|]. cbn -[lookup_live].
    by rewrite (lookup_live_same _ _ _ _ Hsame).
  - destruct (on_exec fl); [done|]. cbn.
    by destruct (redis_incr_expire _ _ _ _), (redis_incr_expire _ _ _ _).
Qed.

Lemma append_cons (x : ascii) (a c : string) : String x a +:+ c = String x (a +:+ c).
Proof. reflexivity. Qed.

Lemma append_cancel_l (p a b : string) : p +:+ a = p +:+ b → a = b.
Proof.
  induction p as [|x p IH]; intros H; [exact H|].
  rewrite !append_cons in H. injection H as H. by apply IH.
Qed.

Lemma append_inj_same_length (a b c d : string) :
  String.length a = String.length b → a +:+ c = b +:+ d → a = b ∧ c = d.
Proof.
  revert b. induction a as [|x a IH]; intros [|y b] Hlen Heq; try done.
  rewrite !append_cons in Heq. cbn in Hlen. injection Heq as -> Heq.
  destruct (IH b) as [-> ->]; [lia | done | done].
Qed.

(** Different hashes of one length, or different routes: different keys. *)
Lemma rate_limit_key_differs h1 r1 h2 r2 :
  String.length h1 = String.length h2 → h1 ≠ h2 ∨ r1 ≠ r2 →
  rate_limit_key h1 r1 ≠ rate_limit_key h2 r2.
Proof.
  unfold rate_limit_key. intros Hlen Hne Heq.
  apply append_cancel_l, append_inj_same_length in Heq as [-> Heq]; [|done].
  apply append_cancel_l in Heq. by destruct Hne.
Qed.

(** X1.  Clients, and routes, do not share counters.  Take two requests
    whose address hashes have the same length -- [hashIp] yields 64
    hexadecimal digits -- and differ, or whose method and route differ.
    Whatever the first request does (admitted, rejected, or failing on
    Redis), the entry of the second request's key is as before, and the
    guard decides the second request exactly as it would have without the
    first. *)
Theorem requests_do_not_share_counters (hashIp : string → string)
    now1 fl1 opts1 req1 now2 fl2 opts2 req2 g :
  let route (req : request) :=
    method req +:+ ":" +:+
    match route_path req with
    | Some EmptyString | None => url req
    | Some p => p
    end in
  String.length (hashIp (ip req1)) = String.length (hashIp (ip req2)) →
  hashIp (ip req1) ≠ hashIp (ip req2) ∨ route req1 ≠ route req2 →
  let g1 := snd (canActivate hashIp now1 fl1 (Some opts1) req1 g) in
  redis g1 !! rate_limit_key (hashIp (ip req2)) (route req2)
    = redis g !! rate_limit_key (hashIp (ip req2)) (route req2) ∧
  fst (canActivate hashIp now2 fl2 (Some opts2) req2 g1)
    = fst (canActivate hashIp now2 fl2 (Some opts2) req2 g).
Proof.
  intros route Hlen Hne g1. subst g1. unfold canActivate. fold (route req1) (route req2).
  pose proof (rate_limit_key_differs _ (route req1) _ (route req2) Hlen Hne) as Hkey.
  split.
  - by apply request_touches_own_key.
  - apply decision_reads_own_key. by apply request_touches_own_key.
Qed.

Lemma requests_do_not_share_counters_witness :
  let hashIp := λ ip : string, if String.eqb ip "10.0.0.1" then "aa" else "bb" in
  let req1 := Request "10.0.0.1" "GET" (Some "/tasks") "/tasks?page=1" in
  let req2 := Request "10.0.0.2" "GET" (Some "/tasks") "/tasks?page=1" in
  let g := Guard {[ rate_limit_key "bb" "GET:/tasks" := REntry "3" (Some 60000) ]} [] in
  let g1 := snd (canActivate hashIp 0 healthy (Some (Options 3 60000)) req1 g) in
  String.length (hashIp (ip req1)) = String.length (hashIp (ip req2)) ∧
  hashIp (ip req1) ≠ hashIp (ip req2) ∧
  fst (canActivate hashIp 1000 healthy (Some (Options 3 60000)) req2 g1)
    = fst (canActivate hashIp 1000 healthy (Some (Options 3 60000)) req2 g).
Proof.
  intros hashIp req1 req2 g g1.
  split; [reflexivity|]. split; [discriminate|].
  apply (requests_do_not_share_counters hashIp 0 healthy (Options 3 60000) req1
           1000 healthy (Options 3 60000) req2 g); [reflexivity | left; discriminate].
Defined.

(** X2.  The window reopens.  When the key's time to live has run out --
    whatever its counter was, at the limit or beyond -- the next request
    (limit and window of at least a second) is admitted, and the counter
    starts again at 1 with a full window from now. *)
Theorem window_reopens_after_expiry now hashedIp route opts g e t :
  let key := rate_limit_key hashedIp route in
  redis g !! key = Some e → rexpire e = Some t → t ≤ now →
  0 < limit opts → 1000 ≤ windowMs opts →
  handleRateLimit now healthy hashedIp route opts g
    = (Ret true,
       Guard (<[key := REntry "1" (Some (now + windowMs opts / 1000 * 1000))]> (redis g))
             (logs g)).
Proof.
  intros key He Ht Hnow Hlim Hwin.
  assert (Hgone : lookup_live now (redis g) key = None).
  { unfold lookup_live, live. rewrite He, Ht. by destruct (Z.ltb_spec now t); [lia|]. }
  rewrite RateLimitProofs.allow_below; fold key.
  - rewrite RateLimitProofs.incr_expire_absent; [done | done |].
    apply Z.div_str_pos. lia.
  - unfold redis_get. rewrite Hgone. cbn.
    by destruct (Z.leb_spec (limit opts) 0); [lia|].
Qed.

Lemma window_reopens_after_expiry_witness :
  let key := rate_limit_key "h" "GET:/tasks" in
  handleRateLimit 61000 healthy "h" "GET:/tasks" (Options 3 60000)
    (Guard {[ key := REntry "3" (Some 60000) ]} [])
  = (Ret true,
     Guard (<[key := REntry "1" (Some (61000 + 60000 / 1000 * 1000))]>
              {[ key := REntry "3" (Some 60000) ]}) []).
Proof.
  intros key.
  exact (window_reopens_after_expiry 61000 "h" "GET:/tasks" (Options 3 60000)
           (Guard {[ key := REntry "3" (Some 60000) ]} []) (REntry "3" (Some 60000)) 60000
           eq_refl eq_refl ltac:(lia) ltac:(cbn; lia) ltac:(cbn; lia)).
Defined.

(** The transaction with a window of zero seconds, on a key with no entry:
    EXPIRE with a timeout of 0 removes the key INCR has just created. *)
Lemma incr_expire_zero now (db : gmap string rentry) key secs :
  db !! key = None → secs ≤ 0 →
  snd (redis_incr_expire now db key secs) !! key = None.
Proof.
  intros Hk Hs. unfold redis_incr_expire, redis_incr, redis_expire, lookup_live.
  rewrite Hk, lookup_insert_eq. cbn.
  destruct (Z.leb_spec secs 0); [|lia]. cbn. apply lookup_delete_eq.
Qed.

(** X3.  A window shorter than a second limits nothing.  With
    [windowMs < 1000] the window is [Math.floor(windowMs / 1000) = 0]
    seconds (or less), so the key is removed in the very transaction that
    counts the request: starting without an entry, every request of any
    sequence is admitted, however many there are and whatever the limit
    (at least 1), and no entry is left behind. *)
Theorem subsecond_window_never_limits hashedIp route opts times : ∀ g,
  0 < limit opts → windowMs opts < 1000 →
  redis g !! rate_limit_key hashedIp route = None →
  let r := serve hashedIp route opts times g in
  fst r = map (λ _, Ret true) times ∧
  redis (snd r) !! rate_limit_key hashedIp route = None ∧
  logs (snd r) = logs g.
Proof.
  induction times as [|t times IH]; intros g Hlim Hwin Hk; [done|].
  cbn [serve].
  assert (Hws : windowMs opts / 1000 ≤ 0).
  { apply Z.lt_succ_r. apply Z.div_lt_upper_bound; lia. }
  rewrite RateLimitProofs.allow_below.
  2:{ unfold redis_get, lookup_live. rewrite Hk. cbn.
      by destruct (Z.leb_spec (limit opts) 0); [lia|]. }
  specialize (IH (Guard (snd (redis_incr_expire t (redis g) (rate_limit_key hashedIp route)
                                (windowMs opts / 1000))) (logs g)) Hlim Hwin).
  cbn [redis logs] in IH. destruct IH as (Hr & Hd & Hl); [by apply incr_expire_zero|].
  destruct (serve _ _ _ _ _) as [rs g2]. cbn in *. by rewrite Hr.
Qed.

Lemma subsecond_window_never_limits_witness :
  fst (serve "h" "GET:/tasks" (Options 1 999) [0; 1; 2; 3; 4] (Guard ∅ []))
    = [Ret true; Ret true; Ret true; Ret true; Ret true].
Proof.
  apply (subsecond_window_never_limits "h" "GET:/tasks" (Options 1 999) [0; 1; 2; 3; 4]
           (Guard ∅ [])); [cbn; lia | cbn; lia | reflexivity].
Defined.

(** X4.  A limit of zero (or below) rejects the very first request: the
    count read for a key without an entry is 0, which is not below the
    limit.  Nothing is counted, and since TTL answers -2 for a key that
    does not exist, the [nextValidRequestTime] reported lies two seconds
    in the past. *)
Theorem nonpositive_limit_rejects_first_request now hashedIp route opts g :
  limit opts ≤ 0 → lookup_live now (redis g) (rate_limit_key hashedIp route) = None →
  ∃ lg,
    handleRateLimit now healthy hashedIp route opts g
      = (Throw (HttpException
                  {| statusCode := 429;
                     message := "Too many requests, please try again later.";
                     limit' := limit opts;
                     current := 0;
                     remainingRequests := 0;
                     nextValidRequestTime := now - 2000 |} 429),
         Guard (redis g) lg).
Proof.
  intros Hlim Hk.
  assert (Hcount : count_of (redis_get now (redis g) (rate_limit_key hashedIp route)) = Int 0).
  { unfold redis_get. by rewrite Hk. }
  eexists. rewrite RateLimitProofs.reject_at_limit; [|done|done|].
  - rewrite Hcount. unfold redis_ttl. rewrite Hk.
    by replace (now + -2 * 1000) with (now - 2000) by lia.
  - rewrite Hcount. cbn. by destruct (Z.leb_spec (limit opts) 0); [|lia].
Qed.

Lemma nonpositive_limit_rejects_first_request_witness :
  ∃ lg,
    handleRateLimit 5000 healthy "h" "GET:/tasks" (Options 0 60000) (Guard ∅ [])
      = (Throw (HttpException
                  (Response 429 "Too many requests, please try again later." 0 0 0
                     (5000 - 2000)) 429),
         Guard ∅ lg).
Proof.
  exact (nonpositive_limit_rejects_first_request 5000 "h" "GET:/tasks" (Options 0 60000)
           (Guard ∅ []) ltac:(cbn; lia) eq_refl).
Defined.
End RateLimitMore.

(** * The counter as text *)
Module CounterText.
Import RateLimit.

Ltac digit_of_char :=
  change (digit _) with (Some 0) || change (digit _) with (Some 1)
  || change (digit _) with (Some 2) || change (digit _) with (Some 3)
  || change (digit _) with (Some 4) || change (digit _) with (Some 5)
  || change (digit _) with (Some 6) || change (digit _) with (Some 7)
  || change (digit _) with (Some 8) || change (digit _) with (Some 9).

(** The digits of a decimal numeral, read by the loop of [parseInt] from
    a positive value accumulated so far ... *)
Lemma digits_uint_pos d : ∀ p,
  digits (NilEmpty.string_of_uint d) (Some (Z.pos p)) = Some (Z.pos (Pos.of_uint_acc d p)).
Proof.
  induction d; intros p; cbn [NilEmpty.string_of_uint digits Pos.of_uint_acc]; [done|..];
    digit_of_char; cbn [default]; rewrite <- IHd; do 2 f_equal; unfold id; lia.
Qed.

(** ... and from zero. *)
Lemma digits_uint_zero d :
  digits (NilEmpty.string_of_uint d) (Some 0) = Some (Z.of_N (N.of_uint d)).
Proof.
  induction d; cbn [NilEmpty.string_of_uint digits N.of_uint Pos.of_uint]; [done|..];
    digit_of_char; cbn [default]; try exact IHd;
    match goal with
    | |- digits _ (Some ?a) = _ =>
        let p := eval cbv in (Z.to_pos a) in
        change a with (Z.pos p); rewrite digits_uint_pos
    end; reflexivity.
Qed.

Lemma parseInt_uint d :
  d ≠ Decimal.Nil →
  parseInt (NilEmpty.string_of_uint d) = to_number (Z.of_N (N.of_uint d)).
Proof.
  intros Hd.
  assert (H : parseInt (NilEmpty.string_of_uint d)
              = match digits (NilEmpty.string_of_uint d) (Some 0) with
                | Some n => to_number (1 * n)
                | None => NaN
                end) by (by destruct d).
  rewrite H, digits_uint_zero. f_equal. lia.
Qed.

(** What the guard reads back from a counter Redis wrote, up to [2^53]:
    the counter. *)
Lemma count_of_dec n : 0 ≤ n ≤ 2 ^ 53 → count_of (Some (dec n)) = Int n.
Proof.
  intros Hn. unfold dec. destruct n as [|p|p]; [done| |lia].
  cbn [Z.to_int NilZero.string_of_int].
  assert (Hnn : Pos.to_uint p ≠ Decimal.Nil) by apply DecimalPos.Unsigned.to_uint_nonnil.
  assert (Hs : NilZero.string_of_uint (Pos.to_uint p) = NilEmpty.string_of_uint (Pos.to_uint p))
    by (by destruct (Pos.to_uint p)).
  rewrite Hs. unfold count_of.
  destruct (NilEmpty.string_of_uint (Pos.to_uint p)) eqn:Hstr.
  { by destruct (Pos.to_uint p). }
  rewrite <- Hstr, parseInt_uint by done.
  rewrite DecimalPos.Unsigned.of_to. apply RateLimitProofs.to_number_safe. cbn. lia.
Qed.

(** Above [2^53] it is not: a counter of [2^53 + 3] is read as
    [2^53 + 4]. *)
Example count_of_rounds :
  count_of (Some (dec (2 ^ 53 + 3))) = Int (2 ^ 53 + 4).
Proof. vm_compute. reflexivity. Qed.

(** What INCR reads back from a counter it wrote: the counter. *)
Lemma string2ll_dec n : - 2 ^ 63 ≤ n ≤ 2 ^ 63 - 1 → string2ll (dec n) = Some n.
Proof.
  intros Hn. unfold string2ll, dec.
  rewrite NilZero.isi.
  - rewrite DecimalZ.of_to, String.eqb_refl.
    destruct (Z.leb_spec (- 2 ^ 63) n), (Z.leb_spec n (2 ^ 63 - 1)); (done || lia).
  - destruct n as [|p|p]; try done. cbn. intros [= H].
    by apply DecimalPos.Unsigned.to_uint_nonnil in H.
  - destruct n as [|p|p]; try done. cbn. intros [= H].
    by apply DecimalPos.Unsigned.to_uint_nonnil in H.
Qed.
End CounterText.

(** * The guard over a whole window *)
Module WindowProofs.
Import RateLimit RateLimitRuns.

(** From a live counter at [j], with every request time before the key's
    expiry: the next [limit - j] requests are admitted and all later ones
    are rejected at the limit. *)
Lemma serve_from_count hashedIp route opts t0 times : ∀ g j e,
  let key := rate_limit_key hashedIp route in
  let W := windowMs opts / 1000 * 1000 in
  1 ≤ j ≤ limit opts → limit opts ≤ 2 ^ 53 → 1000 ≤ windowMs opts →
  redis g !! key = Some (REntry (dec j) (Some e)) → t0 + W ≤ e →
  Forall (λ t, t0 ≤ t < t0 + W) times →
  let rs := fst (serve hashedIp route opts times g) in
  length rs = length times ∧
  Forall (λ r, r = Ret true) (take (Z.to_nat (limit opts - j)) rs) ∧
  Forall (λ r, ∃ resp, r = Throw (HttpException resp 429) ∧
                       limit' resp = limit opts ∧ current resp = limit opts ∧
                       remainingRequests resp = 0)
         (drop (Z.to_nat (limit opts - j)) rs).
Proof.
  induction times as [|t times IH]; intros g j e key W Hj Hmax Hwin He Hexp Htimes rs;
    subst rs; [cbn; by rewrite take_nil, drop_nil|].
  apply Forall_cons in Htimes as [Ht Htimes].
  assert (Hws : 0 < windowMs opts / 1000) by (apply Z.div_str_pos; lia).
  assert (Hlive : lookup_live t (redis g) key = Some (REntry (dec j) (Some e))).
  { unfold lookup_live, live. rewrite He. cbn.
    by destruct (Z.ltb_spec t e); [|lia]. }
  assert (Hcount : count_of (redis_get t (redis g) key) = Int j).
  { unfold redis_get. rewrite Hlive. apply CounterText.count_of_dec. lia. }
  cbn [serve].
  destruct (decide (j < limit opts)) as [Hlt|Hge].
  - rewrite (RateLimitProofs.admitted_request_sets_expiry _ _ _ _ _ _ j Hlive);
      [| by apply CounterText.count_of_dec; lia | by apply CounterText.string2ll_dec; lia
       | done | lia | done ].
    fold key.
    specialize (IH (Guard (<[key := REntry (dec (j + 1))
                               (Some (t + windowMs opts / 1000 * 1000))]> (redis g)) (logs g))
                   (j + 1) (t + W)).
    cbn [redis] in IH. destruct IH as (Hlen & Htake & Hdrop);
      [lia | done | done | by rewrite lookup_insert_eq | lia | done |].
    destruct (serve _ _ _ _ _) as [rs g2]. cbn [fst] in *.
    replace (Z.to_nat (limit opts - j)) with (S (Z.to_nat (limit opts - (j + 1)))) by lia.
    cbn. split; [by rewrite Hlen|]. split; [by constructor | done].
  - assert (j = limit opts) as -> by lia.
    rewrite RateLimitProofs.reject_at_limit; fold key; [|done|done|].
    2:{ rewrite Hcount. cbn. by destruct (Z.leb_spec (limit opts) (limit opts)); [|lia]. }
    rewrite Hcount.
    match goal with
    | |- context [serve _ _ _ _ (Guard ?db ?lg)] =>
        specialize (IH (Guard db lg) (limit opts) e)
    end.
    cbn [redis] in IH. destruct IH as (Hlen & Htake & Hdrop); try done.
    destruct (serve _ _ _ _ _) as [rs g2]. cbn [fst] in *.
    rewrite Z.sub_diag in *. cbn. split; [by rewrite Hlen|]. split; [done|].
    constructor; [|done]. eexists. by repeat split.
Qed.

(** The bound of [2^53] on the limit, below, is needed: under a limit of
    [2^53 + 4], a counter that stands at [2^53 + 3] is read as [2^53 + 4],
    and the request is rejected one short of the limit. *)
Example rejected_below_a_large_limit :
  ∃ resp,
    fst (handleRateLimit 0 healthy "h" "GET:/tasks" (Options (2 ^ 53 + 4) 60000)
           (Guard {[ rate_limit_key "h" "GET:/tasks" :=
                       REntry (dec (2 ^ 53 + 3)) (Some 60000) ]} []))
      = Throw (HttpException resp 429) ∧
    current resp = 2 ^ 53 + 4.
Proof. eexists. split; vm_compute; reflexivity. Qed.

(** X5.  Exactly [limit] requests per window.  For any limit from 1 up to
    [2^53] -- the range in which a double holds every counter the guard
    reads back -- and any window of a second or more: of a sequence of
    requests of one identity on one route that starts without a counter
    and stays within the window as the guard sizes it
    ([floor(windowMs / 1000)] seconds from the first request), the first
    [limit] are admitted and every later one is rejected with status 429,
    [current = limit] and [remainingRequests = 0], however many there
    are. *)
Theorem exactly_limit_requests_admitted hashedIp route opts g t0 times :
  let key := rate_limit_key hashedIp route in
  let W := windowMs opts / 1000 * 1000 in
  1 ≤ limit opts → limit opts ≤ 2 ^ 53 → 1000 ≤ windowMs opts →
  lookup_live t0 (redis g) key = None →
  Forall (λ t, t0 ≤ t < t0 + W) times →
  let rs := fst (serve hashedIp route opts (t0 :: times) g) in
  length rs = S (length times) ∧
  Forall (λ r, r = Ret true) (take (Z.to_nat (limit opts)) rs) ∧
  Forall (λ r, ∃ resp, r = Throw (HttpException resp 429) ∧
                       limit' resp = limit opts ∧ current resp = limit opts ∧
                       remainingRequests resp = 0)
         (drop (Z.to_nat (limit opts)) rs).
Proof.
  intros key W Hlim Hmax Hwin Hfresh Htimes rs. subst rs.
  cbn [serve].
  assert (Hws : 0 < windowMs opts / 1000) by (apply Z.div_str_pos; lia).
  rewrite RateLimitProofs.allow_below; fold key.
  2:{ unfold redis_get. rewrite Hfresh. cbn.
      by destruct (Z.leb_spec (limit opts) 0); [lia|]. }
  rewrite RateLimitProofs.incr_expire_absent by done.
  pose proof (serve_from_count hashedIp route opts t0 times
                (Guard (<[key := REntry "1" (Some (t0 + windowMs opts / 1000 * 1000))]> (redis g))
                       (logs g)) 1 (t0 + W)) as H.
  cbn [redis] in H. destruct H as (Hlen & Htake & Hdrop);
    [lia | done | done | by rewrite lookup_insert_eq | lia | done |].
  destruct (serve _ _ _ _ _) as [rs g2]. cbn [fst] in *.
  replace (Z.to_nat (limit opts)) with (S (Z.to_nat (limit opts - 1))) by lia.
  cbn. split; [by rewrite Hlen|]. split; [by constructor | done].
Qed.

Lemma exactly_limit_requests_admitted_witness :
  let rs := fst (serve "h" "GET:/tasks" (Options 2 5000) [0; 100; 200; 4999] (Guard ∅ [])) in
  take 2 rs = [Ret true; Ret true] ∧
  Forall (λ r, ∃ resp, r = Throw (HttpException resp 429) ∧
                       limit' resp = 2 ∧ current resp = 2 ∧ remainingRequests resp = 0)
         (drop 2 rs).
Proof.
  intros rs.
  destruct (exactly_limit_requests_admitted "h" "GET:/tasks" (Options 2 5000) (Guard ∅ [])
              0 [100; 200; 4999]) as (_ & _ & Hdrop);
    [cbn; lia | cbn; lia | cbn; lia | reflexivity
     | repeat constructor; cbn; lia | ].
  split; [reflexivity | exact Hdrop].
Defined.
End WindowProofs.

(** * Further properties of the cache service *)
Module CacheMore.
Import Cache CacheVocabulary CacheProofs.

Lemma namespaced_inj NODE_ENV (k1 k2 : string) :
  namespace NODE_ENV +:+ k1 = namespace NODE_ENV +:+ k2 → k1 = k2.
Proof. apply RateLimitMore.append_cancel_l. Qed.

(** [set] of a value that is not an object, accepted by the cache
    manager. *)
Lemma set_value NODE_ENV now flt s v ttlSeconds w :
  s ≠ "" → (∀ l, v ≠ JRef l) → flt OpSet (namespace NODE_ENV +:+ s) = None →
  set NODE_ENV now flt (JStr s) v ttlSeconds w
    = (Ret tt,
       World (heap w)
         (<[namespace NODE_ENV +:+ s := CEntry v (now + ttlSeconds * 1000)]> (entries w))
         (set_add (namespace NODE_ENV +:+ s) (cachedKeys w))
         (logs w ++ [Log LDebug
            ("Cache set: " +:+ (namespace NODE_ENV +:+ s)
               +:+ " (TTL: " +:+ number_text ttlSeconds +:+ "s)") None])).
Proof.
  intros Hs Hv Hf. open_ops. destruct s; [done|].
  destruct v; try (by rewrite Hf). by destruct (Hv l).
Qed.

(** X6.  What was set is what is got back, for as long as it lives.  After
    [set(k, v, ttl)] of a value that is not an object (objects come back
    as copies), with a time to live of at least a second and a cache
    manager that took the write: [get(k)] returns [v] itself at any time
    before [ttl] seconds have passed, and the cache manager's "absent"
    result from then on. *)
Theorem set_then_get NODE_ENV absent now flt s v ttlSeconds w now' flt' :
  s ≠ "" → (∀ l, v ≠ JRef l) → 0 < ttlSeconds →
  flt OpSet (namespace NODE_ENV +:+ s) = None →
  flt' OpGet (namespace NODE_ENV +:+ s) = None →
  let w1 := snd (set NODE_ENV now flt (JStr s) v ttlSeconds w) in
  (now' < now + ttlSeconds * 1000 →
     fst (get NODE_ENV absent now' flt' (JStr s) w1) = Ret v) ∧
  (now + ttlSeconds * 1000 ≤ now' →
     fst (get NODE_ENV absent now' flt' (JStr s) w1) = Ret (missing_value absent)).
Proof.
  intros Hs Hv Httl Hf Hf' w1. subst w1. rewrite set_value by done. cbn [snd]. split.
  - intros Hlive. open_ops. destruct s; [done|]. rewrite Hf'. cbn [entries].
    rewrite lookup_insert_eq. cbn [cval cexpires].
    destruct (Z.ltb_spec now' (now + ttlSeconds * 1000)); [|lia].
    destruct v; try done. by destruct (Hv l).
  - intros Hdead. rewrite get_miss; [done | done | done |].
    right. eexists. cbn. rewrite lookup_insert_eq. done.
Qed.

Lemma set_then_get_witness :
  let w1 := snd (set None 0 no_faults (JStr "k") (JStr "v") 300 fresh) in
  fst (get None AsUndefined 299999 no_faults (JStr "k") w1) = Ret (JStr "v") ∧
  fst (get None AsUndefined 300000 no_faults (JStr "k") w1) = Ret JUndefined.
Proof.
  intros w1.
  pose proof (set_then_get None AsUndefined 0 no_faults "k" (JStr "v") 300 fresh)
    as H.
  split.
  - apply (H 299999 no_faults); (done || lia).
  - apply (H 300000 no_faults); (done || lia).
Defined.



(** X8.  Keys do not interfere.  The namespaced forms of two different
    keys are different, so [set] and [delete] of one key leave the entry
    of every other key as it is, and [has] of the other key answers as
    before. *)
Theorem other_keys_untouched NODE_ENV now flt s1 s2 v ttlSeconds w :
  s1 ≠ s2 →
  let nk2 := namespace NODE_ENV +:+ s2 in
  let after_set := snd (set NODE_ENV now flt (JStr s1) v ttlSeconds w) in
  let after_delete := snd (delete NODE_ENV flt (JStr s1) w) in
  entries after_set !! nk2 = entries w !! nk2 ∧
  entries after_delete !! nk2 = entries w !! nk2 ∧
  (∀ absent now' flt',
     fst (has NODE_ENV absent now' flt' (JStr s2) after_set)
       = fst (has NODE_ENV absent now' flt' (JStr s2) w) ∧
     fst (has NODE_ENV absent now' flt' (JStr s2) after_delete)
       = fst (has NODE_ENV absent now' flt' (JStr s2) w)).
Proof.
  intros Hne nk2 after_set after_delete.
  assert (Hnk : namespace NODE_ENV +:+ s1 ≠ nk2).
  { intros H. by apply namespaced_inj in H. }
  assert (H1 : entries after_set !! nk2 = entries w !! nk2).
  { subst after_set. open_ops. cases; simplify_eq; cbn; try done;
      by rewrite lookup_insert_ne. }
  assert (H2 : entries after_delete !! nk2 = entries w !! nk2).
  { subst after_delete. open_ops. cases; simplify_eq; cbn; try done;
      by rewrite lookup_delete_ne. }
  split; [done|]. split; [done|].
  intros absent now' flt'. open_ops. destruct s2.
  - split; reflexivity.
  - fold nk2. destruct (flt' OpGet nk2); [done|]. cbn. by rewrite H1, H2.
Qed.

Lemma other_keys_untouched_witness :
  let w := snd (set None 0 no_faults (JStr "b") (JNum 2) 300 fresh) in
  fst (has None AsNull 1000 no_faults (JStr "b")
         (snd (delete None no_faults (JStr "a") w)))
    = fst (has None AsNull 1000 no_faults (JStr "b") w).
Proof.
  intros w.
  apply (other_keys_untouched None 0 no_faults "a" "b" JNull 300 w ltac:(discriminate)).
Defined.

(** X9.  [has(k)] answers [true] exactly when the key is a non-empty
    string, the cache manager's read went through, and it holds a live
    entry under the namespaced key whose value is neither [null] nor
    [undefined]. *)
Theorem has_true_iff NODE_ENV absent now flt key w :
  fst (has NODE_ENV absent now flt key w) = Ret true ↔
  ∃ s e, key = JStr s ∧ s ≠ "" ∧
         flt OpGet (namespace NODE_ENV +:+ s) = None ∧
         entries w !! (namespace NODE_ENV +:+ s) = Some e ∧
         now < cexpires e ∧ cval e ≠ JNull ∧ cval e ≠ JUndefined.
Proof.
  split.
  - open_ops. destruct key as [[| | | |s|]|]; try done. destruct s as [|a s]; [done|].
    destruct (flt OpGet _) eqn:Hf; [done|]. cbn.
    destruct (entries w !! _) as [e|] eqn:He; [|by destruct absent].
    destruct (Z.ltb_spec now (cexpires e)); [|by destruct absent].
    intros Hv. exists (String a s), e. repeat split; try done; by intros Hc; rewrite Hc in Hv.
  - intros (s & e & -> & Hs & Hf & He & Hlive & Hn & Hu).
    open_ops. destruct s; [done|]. rewrite Hf, He. cbn.
    destruct (Z.ltb_spec now (cexpires e)); [|lia]. by destruct (cval e).
Qed.

Lemma has_true_iff_witness :
  fst (has None AsNull 1000 no_faults (JStr "k")
         (snd (set None 0 no_faults (JStr "k") (JNum 0) 300 fresh))) = Ret true.
Proof.
  apply (has_true_iff None AsNull 1000 no_faults (JStr "k")).
  exists "k", (CEntry (JNum 0) 300000). by repeat split.
Defined.

(** X10.  [set] tracks and stores together, or not at all.  Whatever the
    key, the value and the faults: either the entries and the tracking
    set are both as before -- so for an object that refers to itself
    ([JSON.stringify] throws), for a bad key, for a failing write -- or
    the namespaced key is tracked and holds the entry just written, which
    for an object is a reference to an object that did not exist
    before. *)
Theorem set_stores_and_tracks_together NODE_ENV now flt key value ttlSeconds w :
  let w1 := snd (set NODE_ENV now flt key value ttlSeconds w) in
  ((entries w1 = entries w ∧ cachedKeys w1 = cachedKeys w) ∨
   ∃ s stored,
     key = JStr s ∧ s ≠ "" ∧
     entries w1 = <[namespace NODE_ENV +:+ s := CEntry stored (now + ttlSeconds * 1000)]>
                    (entries w) ∧
     cachedKeys w1 = set_add (namespace NODE_ENV +:+ s) (cachedKeys w) ∧
     (namespace NODE_ENV +:+ s) ∈ cachedKeys w1 ∧
     match value with
     | JRef _ => ∃ r, stored = JRef r ∧ (length (heap w) ≤ r < length (heap w1))%nat
     | _ => stored = value
     end) ∧
  (∀ l, value = JRef l → JSON_stringify (heap w) value = None →
        entries w1 = entries w ∧ cachedKeys w1 = cachedKeys w ∧ heap w1 = heap w).
Proof.
  intros w1. subst w1.
  assert (Hadd : ∀ k ks, k ∈ set_add k ks).
  { intros k ks. unfold set_add. case_decide; [done|]. apply elem_of_app. right. by left. }
  split.
  - destruct key as [[| | | |s|]|]; try (left; by open_ops).
    destruct s as [|a s]; [left; by open_ops|].
    destruct (flt OpSet (namespace NODE_ENV +:+ String a s)) as [e|] eqn:Hf.
    { left. open_ops. rewrite Hf. cases; simplify_eq; done. }
    destruct value as [| | b | n | s' | l];
      try (right; eexists _, _; rewrite set_value by (done || by intros l);
           cbn; repeat split; done).
    destruct (JSON_stringify (heap w) (JRef l)) as [[j|]|] eqn:Hj.
    + right. destruct (set_stores_copy NODE_ENV now flt (String a s) l ttlSeconds w j)
        as (objs & root & Hp & Hne & ->); try done.
      destruct (parse_of_ref _ _ _ _ (length (heap w)) Hj) as (objs' & o & Hp').
      rewrite Hp in Hp'. injection Hp' as -> ->.
      eexists _, _. cbn. repeat split; try done.
      eexists. split; [done|]. rewrite !length_app. cbn. lia.
    + left. open_ops. by rewrite Hj.
    + left. open_ops. by rewrite Hj.
  - intros l -> Hj. open_ops. destruct key as [[| | | |s|]|]; try done.
    destruct s; [done|]. by rewrite Hj.
Qed.

Lemma set_stores_and_tracks_together_witness :
  let w := World [Obj [("self", JRef 0)]] ∅ [] [] in
  let w1 := snd (set None 0 no_faults (JStr "k") (JRef 0) 300 w) in
  JSON_stringify (heap w) (JRef 0) = None ∧
  entries w1 = entries w ∧ cachedKeys w1 = cachedKeys w ∧ heap w1 = heap w.
Proof.
  intros w w1. split; [reflexivity|].
  apply (set_stores_and_tracks_together None 0 no_faults (JStr "k") (JRef 0) 300 w)
    with (l := 0%nat); reflexivity.
Defined.

Lemma owned_same w w' :
  entries w' = entries w → cachedKeys w' = cachedKeys w → owned w → owned w'.
Proof. unfold owned. by intros -> ->. Qed.

Lemma owned_set_add w nk e h lg :
  owned w → owned (World h (<[nk := e]> (entries w)) (set_add nk (cachedKeys w)) lg).
Proof.
  intros Ho k. cbn. unfold set_add. destruct (decide (nk = k)) as [->|Hne].
  - intros _. case_decide; [done|]. apply elem_of_app. right. by left.
  - rewrite lookup_insert_ne by done. intros Hk%Ho.
    case_decide; [done|]. apply elem_of_app. by left.
Qed.

Lemma owned_delete w nk h lg :
  owned w → owned (World h (base.delete nk (entries w)) (set_delete nk (cachedKeys w)) lg).
Proof.
  intros Ho k. cbn. unfold set_delete. destruct (decide (nk = k)) as [->|Hne].
  - rewrite lookup_delete_eq. by intros [? ?].
  - rewrite lookup_delete_ne by done. intros Hk%Ho.
    apply list_elem_of_filter. split; [congruence | done].
Qed.

Lemma set_owned NODE_ENV now flt key value ttlSeconds w :
  owned w → owned (snd (set NODE_ENV now flt key value ttlSeconds w)).
Proof.
  intros Ho. open_ops. cases; simplify_eq;
    first [ by apply owned_set_add | by eapply owned_same; [| |exact Ho] ].
Qed.

Lemma delete_owned NODE_ENV flt key w :
  owned w → owned (snd (delete NODE_ENV flt key w)).
Proof.
  intros Ho. open_ops. cases; simplify_eq;
    first [ by apply owned_delete | by eapply owned_same; [| |exact Ho] ].
Qed.

Lemma get_owned NODE_ENV absent now flt key w :
  owned w → owned (snd (get NODE_ENV absent now flt key w)).
Proof.
  intros Ho. destruct (get_frame NODE_ENV absent now flt key w) as (He & Hk & _).
  by eapply owned_same.
Qed.

Lemma has_owned NODE_ENV absent now flt key w :
  owned w → owned (snd (has NODE_ENV absent now flt key w)).
Proof.
  intros Ho. open_ops. cases; simplify_eq; by eapply owned_same; [| |exact Ho].
Qed.

Lemma kept_in_state {A} (I : world → Prop) (m : M fault world A) :
  (∀ w, I w → I (snd (m w))) → hoare I m (λ _, I) (λ _ w, I w ∧ True).
Proof.
  intros Hi w Hw. specialize (Hi w Hw). by destruct (m w) as [[a|e] w'].
Qed.

(** X11.  [clear] empties a cache the service owns.  That every entry of
    the cache manager is tracked holds of a new service over an empty
    cache and is kept by [set], [get], [delete], [has], [mset] and [mget],
    whatever fails in them; and from such a state a [clear] whose deletes
    go through leaves no entry at all and no tracked key. *)
Theorem clear_empties_owned_cache NODE_ENV absent now flt :
  owned fresh ∧
  (∀ w, owned w →
     (∀ key value ttl, owned (snd (set NODE_ENV now flt key value ttl w))) ∧
     (∀ key, owned (snd (get NODE_ENV absent now flt key w))) ∧
     (∀ key, owned (snd (delete NODE_ENV flt key w))) ∧
     (∀ key, owned (snd (has NODE_ENV absent now flt key w))) ∧
     (∀ pairs ttl, owned (snd (mset NODE_ENV now flt pairs ttl w))) ∧
     (∀ keys, owned (snd (mget NODE_ENV absent now flt keys w)))) ∧
  (∀ w, owned w → (∀ k, k ∈ cachedKeys w → flt OpDel k = None) →
     entries (snd (clear flt w)) = ∅ ∧ cachedKeys (snd (clear flt w)) = []).
Proof.
  split; [by intros k [? ?]|]. split.
  - intros w Ho. repeat split; intros.
    + by apply set_owned.
    + by apply get_owned.
    + by apply delete_owned.
    + by apply has_owned.
    + eapply kept with (R := λ _, owned); [|done|done].
      match goal with p : jsarg entry |- _ => destruct p as [v|es] end;
        [by apply hoare_throw|].
      cbn. eapply hoare_bind with (Q' := λ _, owned).
      * apply keep_Array_map. intros [msg|key value]; [by apply hoare_throw|].
        apply keep_async with (R' := λ _ _, True). apply kept_in_state.
        intros w0. apply set_owned.
      * intros ps. eapply hoare_bind; [apply keep_Promise_all|]. intros ?.
        by apply hoare_ret.
    + eapply kept with (R := λ _, owned); [|done|done].
      destruct keys as [v|ks]; [by apply hoare_throw|].
      cbn. eapply hoare_bind with (Q' := λ _, owned).
      * apply keep_Array_map. intros key.
        apply keep_async with (R' := λ _ _, True). apply kept_in_state.
        intros w0 Hw0. unfold bind.
        pose proof (get_owned NODE_ENV absent now flt key w0 Hw0) as Hg.
        by destruct (get _ _ _ _ _ w0) as [[?|?] ?].
      * intros ps. eapply hoare_bind; [apply keep_Promise_all|]. intros ?.
        eapply hoare_bind with (Q' := λ _, owned); [by apply hoare_gets|]. intros ?.
        by apply hoare_ret.
  - intros w Ho Hok.
    destruct (clear_deletes flt (cachedKeys w) w) as (w1 & Hrun & Hh & Hk & He & _).
    assert (Hc : clear flt w
              = (Ret tt, World (heap w1) (entries w1) [] (logs w1 ++ [Log LDebug "Cache cleared" None]))).
    { unfold clear, try_catch at 1, bind, gets. rewrite Hrun. reflexivity. }
    rewrite Hc. cbn. split; [|done]. apply map_eq. intros k. rewrite He, lookup_empty.
    destruct (decide (k ∈ cachedKeys w)) as [Hin|Hnin].
    + by rewrite (Hok k Hin).
    + destruct (entries w !! k) eqn:Hek.
      * exfalso. apply Hnin, Ho. by rewrite Hek.
      * by destruct (flt OpDel k).
Qed.

Lemma clear_empties_owned_cache_witness :
  let w := snd (mset None 0 no_faults
                  (IsArray [Items (JStr "a") (JNum 1); Items (JStr "b") (JNum 2)]) 300 fresh) in
  owned w ∧ entries (snd (clear no_faults w)) = ∅.
Proof.
  intros w.
  destruct (clear_empties_owned_cache None AsNull 0 no_faults) as (Hfresh & Hkeep & Hclear).
  assert (Ho : owned w) by apply (Hkeep fresh Hfresh).
  split; [exact Ho|]. by apply Hclear.
Defined.

(** The [set]s of [mset], one after the other, for keys that are non-empty
    strings and values that are not objects: the entries written. *)
Lemma all_set_entries NODE_ENV now ttlSeconds (es : list (string * jsval)) : ∀ w,
  Forall (λ kv, kv.1 ≠ "" ∧ ∀ l, kv.2 ≠ JRef l) es →
  ∃ w',
    Array_map (λ e, match e with
                    | NotIterable msg => throw (TypeError msg)
                    | Items key value => async (set NODE_ENV now no_faults key value ttlSeconds)
                    end)
      ((λ kv, Items (JStr kv.1) kv.2) <$> es) w = (Ret (Ret <$> ((λ _, tt) <$> es)), w') ∧
    entries w' = foldl (λ m kv, <[namespace NODE_ENV +:+ kv.1 :=
                                   CEntry kv.2 (now + ttlSeconds * 1000)]> m)
                   (entries w) es.
Proof.
  induction es as [|[k v] es IH]; intros w Hes; [by exists w|].
  apply Forall_cons in Hes as [[Hk Hv] Hes]. cbn in Hk, Hv. cbn [fmap list_fmap fst snd foldl].
  pose proof (set_value NODE_ENV now no_faults k v ttlSeconds w Hk Hv eq_refl) as Hset.
  rewrite (Array_map_async _ (set NODE_ENV now no_faults (JStr k) v ttlSeconds)) by done.
  destruct (IH (snd (set NODE_ENV now no_faults (JStr k) v ttlSeconds w)) Hes)
    as (w' & Hrun & He).
  rewrite Hrun. rewrite Hset in He |- *. cbn [fst snd entries] in He |- *.
  by exists w'.
Qed.

Lemma mset_entries NODE_ENV now ttlSeconds (es : list (string * jsval)) w :
  Forall (λ kv, kv.1 ≠ "" ∧ ∀ l, kv.2 ≠ JRef l) es →
  ∃ w',
    mset NODE_ENV now no_faults (pairs es) ttlSeconds w = (Ret tt, w') ∧
    entries w' = foldl (λ m kv, <[namespace NODE_ENV +:+ kv.1 :=
                                   CEntry kv.2 (now + ttlSeconds * 1000)]> m)
                   (entries w) es.
Proof.
  intros Hes. destruct (all_set_entries NODE_ENV now ttlSeconds es w Hes)
    as (w' & Hrun & He).
  exists w'. split; [|done]. unfold pairs, mset. erewrite bind_run by exact Hrun.
  unfold bind, Promise_all, ret. by rewrite settled_returned.
Qed.

Lemma foldl_insert_lookup_NoDup NODE_ENV exp (es : list (string * jsval)) :
  ∀ (m : gmap string centry) k v,
  NoDup (es.*1) → (k, v) ∈ es →
  foldl (λ m kv, <[namespace NODE_ENV +:+ kv.1 := CEntry kv.2 exp]> m) m es
    !! (namespace NODE_ENV +:+ k) = Some (CEntry v exp).
Proof.
  induction es as [|[k0 v0] es IH]; intros m k v Hnd Hin; [by apply elem_of_nil in Hin|].
  cbn in Hnd. apply NoDup_cons in Hnd as [Hk0 Hnd]. cbn [foldl fst snd].
  apply elem_of_cons in Hin as [[= -> ->]|Hin]; [|by apply IH].
  clear IH. revert m. induction es as [|[k1 v1] es IH]; intros m; cbn [foldl fst snd].
  - apply lookup_insert_eq.
  - cbn in Hk0, Hnd. apply not_elem_of_cons in Hk0 as [Hne Hk0].
    apply NoDup_cons in Hnd as [_ Hnd].
    rewrite (insert_insert_ne m); [by apply IH|].
    intros H. by apply namespaced_inj in H.
Qed.

(** X12.  [mset] then [mget].  For any list of pairs with distinct keys,
    all non-empty strings, and values that are not objects, a time to live
    of a second or more and a cache manager that answers: [mget] of those
    keys, before the time to live has passed, returns a mapping with
    exactly those keys, each with the value that was set -- and any other
    key asked for along with them maps to the "absent" result unless it
    is cached. *)
Theorem mset_then_mget NODE_ENV absent now now' ttlSeconds (es : list (string * jsval)) w :
  NoDup (es.*1) → Forall (λ kv, kv.1 ≠ "" ∧ ∀ l, kv.2 ≠ JRef l) es →
  0 < ttlSeconds → now' < now + ttlSeconds * 1000 →
  let w1 := snd (mset NODE_ENV now no_faults (pairs es) ttlSeconds w) in
  ∃ m w2,
    mget NODE_ENV absent now' no_faults (strings (es.*1)) w1 = (Ret m, w2) ∧
    (∀ k, is_Some (m !! k) ↔ k ∈ es.*1) ∧
    (∀ k v, (k, v) ∈ es → m !! k = Some v).
Proof.
  intros Hnd Hes Httl Hlive w1. subst w1.
  destruct (mset_entries NODE_ENV now ttlSeconds es w Hes) as (w1 & -> & He). cbn [snd].
  destruct (mget_strings NODE_ENV absent now' (es.*1) w1)
    as (results & w2 & Hrun & _ & _ & Hks & Hall).
  eexists _, w2. split; [exact Hrun|]. split.
  - intros k. split.
    + intros [v Hv]. destruct (fromEntries_lookup results ∅ k) as [(v' & Hin & _)|[_ Hl]].
      * rewrite <- Hks. apply list_elem_of_fmap. by exists (k, v').
      * rewrite Hl in Hv. by rewrite lookup_empty in Hv.
    + intros Hin. destruct (fromEntries_lookup results ∅ k) as [(v & _ & Hl)|[Hnin _]].
      * by exists v.
      * by rewrite Hks in Hnin.
  - intros k v Hin.
    assert (Hk : k ∈ es.*1) by (apply list_elem_of_fmap; by exists (k, v)).
    destruct (fromEntries_lookup results ∅ k) as [(v' & Hin' & Hl)|[Hnin _]];
      [|by rewrite Hks in Hnin].
    rewrite Hl. f_equal.
    rewrite Forall_forall in Hall, Hes.
    destruct (Hes _ Hin) as [Hne Hv]. cbn in Hne, Hv.
    destruct (Hall _ Hin') as [[H _]|[_ H]]; [done|]. cbn in H.
    unfold answers in H. rewrite He in H.
    rewrite (foldl_insert_lookup_NoDup NODE_ENV _ es _ k v Hnd Hin) in H.
    cbn [cval cexpires] in H.
    destruct (Z.ltb_spec now' (now + ttlSeconds * 1000)); [|lia].
    destruct v; try done. by destruct (Hv l).
Qed.

Lemma mset_then_mget_witness :
  let es := [("a", JNum 1); ("b", JStr "two"); ("c", JBool true)] in
  let w1 := snd (mset None 0 no_faults (pairs es) 300 fresh) in
  ∃ m w2,
    mget None AsUndefined 1000 no_faults (strings ["a"; "b"; "c"]) w1 = (Ret m, w2) ∧
    m !! "b" = Some (JStr "two").
Proof.
  intros es w1.
  destruct (mset_then_mget None AsUndefined 0 1000 300 es fresh) as (m & w2 & Hrun & _ & Hv).
  - apply (bool_decide_unpack _). reflexivity.
  - repeat constructor; cbn; done.
  - lia.
  - lia.
  - exists m, w2. split; [exact Hrun|]. apply Hv.
    apply list_elem_of_further, list_elem_of_here.
Defined.
End CacheMore.

(** * Properties of the logging interceptor's helpers *)
Module LoggingProofs.
Import Logging.

Lemma value_nested_ind (P : value → Prop) :
  P VUndefined → P VNull → (∀ b, P (VBool b)) → (∀ n, P (VNum n)) → (∀ s, P (VStr s)) →
  (∀ es, Forall P es → P (VArr es)) →
  (∀ ps, Forall (λ p, P (snd p)) ps → P (VObj ps)) →
  ∀ v, P v.
Proof.
  intros Hu Hn Hb Hz Hs Ha Ho.
  fix IH 1. intros [ | | b | n | s | es | ps ].
  - exact Hu.
  - exact Hn.
  - apply Hb.
  - apply Hz.
  - apply Hs.
  - apply Ha. induction es as [|v es IHes]; constructor; [apply IH | exact IHes].
  - apply Ho. induction ps as [|p ps IHps]; constructor; [apply IH | exact IHps].
Qed.

(** What [sanitizeData] returns for an object or an array is an object. *)
Lemma sanitizeData_object v :
  match v with VArr _ | VObj _ => ∃ ps, sanitizeData v = VObj ps | _ => True end.
Proof. destruct v; try done; cbn; eauto. Qed.

(** A field as the callback leaves it is redacted, if what the recursive
    call returned is. *)
Lemma sanitized_field_redacted key v rec :
  redacted rec →
  let p := sanitized_field key v rec in
  if is_sensitive p.1 then p.2 = REDACTED else redacted p.2.
Proof.
  intros Hrec. unfold sanitized_field. cbn [fst snd].
  destruct (is_sensitive key); [done|]. by destruct v.
Qed.

(** X13.  Whatever is passed to [sanitizeData], in what it returns no
    property whose name contains one of the sensitive words (in any
    letter case), at any depth, holds anything but ["[REDACTED]"]. *)
Theorem sanitizeData_redacts v : redacted (sanitizeData v).
Proof.
  induction v as [ | | b | n | s | es IH | ps IH ] using value_nested_ind; try done.
  - by destruct b.
  - cbn. by destruct (number_truthy n).
  - cbn. destruct s as [|c s]; [done|]. cbn [truthy].
    generalize O. generalize (String c s). clear. intros s.
    induction s as [|c s IHs]; intros i; [done|].
    cbn [spread_string map].
    split; [by apply (sanitized_field_redacted _ (VStr _) (VStr _)) | apply IHs].
  - cbn. generalize O. induction IH as [|v es Hv _ IHes]; intros i; [done|].
    split; [by apply sanitized_field_redacted | apply IHes].
  - cbn. induction IH as [|p ps Hp _ IHps]; [done|].
    split; [by apply sanitized_field_redacted | apply IHps].
Qed.

Example sanitizeData_example :
  sanitizeData
    (VObj [("user", VStr "bob"); ("Password", VStr "x");
           ("items", VArr [VNum 1; VObj [("apiToken", VStr "t"); ("n", VNull)]])])
  = VObj [("user", VStr "bob"); ("Password", REDACTED);
          ("items", VObj [("0", VNum 1);
                          ("1", VObj [("apiToken", REDACTED); ("n", VNull)])])].
Proof. reflexivity. Qed.

(** A field that went through the callback once comes out of it
    unchanged the second time. *)
Lemma sanitized_field_idem key v :
  sanitizeData (sanitizeData v) = sanitizeData v →
  let p := sanitized_field key v (sanitizeData v) in
  sanitized_field p.1 p.2 (sanitizeData p.2) = p.
Proof.
  intros IH. unfold sanitized_field. cbn [fst snd].
  destruct (is_sensitive key); [done|].
  destruct v as [ | | b | n | s | es | ps ]; try done.
  - rewrite IH. by destruct (sanitizeData (VArr es)).
  - rewrite IH. by destruct (sanitizeData (VObj ps)).
Qed.

(** X14.  [sanitizeData] is idempotent: sanitizing what was sanitized
    changes nothing. *)
Theorem sanitizeData_idempotent v : sanitizeData (sanitizeData v) = sanitizeData v.
Proof.
  induction v as [ | | b | n | s | es IH | ps IH ] using value_nested_ind; try done.
  - by destruct b.
  - cbn. by destruct (number_truthy n) eqn:Hn; cbn; [|rewrite Hn].
  - destruct s as [|c s]; [done|]. cbn [sanitizeData truthy]. f_equal.
    generalize O. generalize (String c s). clear. intros s.
    induction s as [|c s IHs]; intros i; [done|].
    cbn [spread_string map]. f_equal; [|apply IHs].
    apply (sanitized_field_idem _ (VStr _)). done.
  - cbn [sanitizeData]. f_equal. generalize O.
    induction IH as [|v es Hv _ IHes]; intros i; [done|].
    f_equal; [by apply sanitized_field_idem | apply IHes].
  - cbn [sanitizeData]. f_equal.
    induction IH as [|p ps Hp _ IHps]; [done|].
    f_equal; [by apply sanitized_field_idem | apply IHps].
Qed.

Lemma sanitized_field_array_free key v :
  array_free (sanitizeData v) → array_free (sanitized_field key v (sanitizeData v)).2.
Proof.
  intros IH. unfold sanitized_field. cbn [snd].
  destruct (is_sensitive key); [done|]. by destruct v.
Qed.

(** X15.  What [sanitizeData] returns holds no array: the copy
    [{ ...data }] of an array is an object with the indices as property
    names, so a list in a request body is logged as an object keyed
    ["0"], ["1"], ... in the order of the list. *)
Theorem sanitizeData_turns_arrays_into_objects v :
  array_free (sanitizeData v) ∧
  ∀ es, v = VArr es →
    ∃ ps, sanitizeData v = VObj ps ∧
          ps.*1 = map (λ i, dec (Z.of_nat i)) (seq 0 (length es)).
Proof.
  split.
  - induction v as [ | | b | n | s | es IH | ps IH ] using value_nested_ind; try done.
    + by destruct b.
    + cbn. by destruct (number_truthy n).
    + destruct s as [|c s]; [done|]. cbn [sanitizeData truthy].
      generalize O. generalize (String c s). clear. intros s.
      induction s as [|c s IHs]; intros i; [done|].
      cbn [spread_string map]. split; [|apply IHs].
      apply (sanitized_field_array_free _ (VStr _)). done.
    + cbn [sanitizeData]. generalize O.
      induction IH as [|v es Hv _ IHes]; intros i; [done|].
      split; [by apply sanitized_field_array_free | apply IHes].
    + cbn [sanitizeData].
      induction IH as [|p ps Hp _ IHps]; [done|].
      split; [by apply sanitized_field_array_free | apply IHps].
  - intros es ->. cbn [sanitizeData]. eexists. split; [reflexivity|].
    generalize O. induction es as [|v es IHes]; intros i; [done|].
    cbn. f_equal. apply IHes.
Qed.

(** One round of the loop of [extractSafeHeaders]. *)
Lemma drop_header_lookup (m : gmap string value) (header h : string) :
  let m' := match m !! header with
            | Some v => if truthy v then base.delete header m else m
            | None => m
            end in
  m' !! h = if decide (h = header)
            then match m !! h with
                 | Some v => if truthy v then None else Some v
                 | None => None
                 end
            else m !! h.
Proof.
  cbn. case_decide as Hh.
  - subst h. destruct (m !! header) as [v|] eqn:Hm; [|done].
    destruct (truthy v); [apply lookup_delete_eq | done].
  - destruct (m !! header) as [v|]; [|done].
    destruct (truthy v); [by rewrite lookup_delete_ne | done].
Qed.

(** X16.  [extractSafeHeaders] returns the headers without
    [authorization], [cookie] and [x-auth-token]: under these three names
    nothing is left but a value that was falsy (an empty string), every
    header of another name -- the match is on the exact name -- is there
    with its value, and nothing is added. *)
Theorem extractSafeHeaders_removes (headers : gmap string value) (h : string) :
  (h ∈ unsafeHeaders →
     match extractSafeHeaders headers !! h with
     | Some v => truthy v = false ∧ headers !! h = Some v
     | None => True
     end) ∧
  (h ∉ unsafeHeaders → extractSafeHeaders headers !! h = headers !! h) ∧
  (∀ v, extractSafeHeaders headers !! h = Some v → headers !! h = Some v).
Proof.
  unfold extractSafeHeaders, unsafeHeaders. cbn [foldl].
  rewrite !drop_header_lookup.
  assert (Hin : h ∈ ["authorization"; "cookie"; "x-auth-token"] ↔
                h = "authorization" ∨ h = "cookie" ∨ h = "x-auth-token").
  { rewrite !elem_of_cons, elem_of_nil. tauto. }
  rewrite Hin. clear Hin.
  repeat case_decide; subst; try done;
    (destruct (headers !! _) as [v|] eqn:Hv; [destruct (truthy v) eqn:Ht|]);
    repeat split; try done; try tauto; intros; simplify_eq; try done; tauto.
Qed.

Lemma extractSafeHeaders_removes_witness :
  let headers : gmap string value :=
    {[ "authorization" := VStr "Bearer abc"; "proxy-authorization" := VStr "Basic xyz";
       "accept" := VStr "*/*" ]} in
  extractSafeHeaders headers !! "authorization" = None ∧
  extractSafeHeaders headers !! "proxy-authorization" = Some (VStr "Basic xyz").
Proof.
  intros headers. split.
  - destruct (extractSafeHeaders_removes headers "authorization") as (H & _ & _).
    assert (Hin : "authorization" ∈ unsafeHeaders) by apply list_elem_of_here.
    specialize (H Hin).
    destruct (extractSafeHeaders headers !! "authorization") as [v|]; [|done].
    destruct H as [Ht Hv]. vm_compute in Hv. by simplify_eq.
  - destruct (extractSafeHeaders_removes headers "proxy-authorization") as (_ & H & _).
    rewrite H; [reflexivity|].
    unfold unsafeHeaders. rewrite !elem_of_cons, elem_of_nil.
    intros [?|[?|[?|[]]]]; discriminate.
Defined.
End LoggingProofs.

(** * The guard's rejection, as the client and the log see it *)
Module FilterProofs.
Import Logging Filter.

(** What [handleRateLimit] throws is its 429 exception with the fixed
    message. *)
Lemma guard_exception now fl hashedIp route opts g resp status :
  fst (RateLimit.handleRateLimit now fl hashedIp route opts g)
    = Throw (RateLimit.HttpException resp status) →
  status = 429 ∧
  RateLimit.message resp = "Too many requests, please try again later.".
Proof.
  unfold RateLimit.handleRateLimit, try_catch, bind, RateLimit.redis_call.
  destruct (RateLimit.on_get fl); [done|]. cbn.
  destruct (number_ge _ _).
  - destruct (RateLimit.on_ttl fl); [done|]. cbn. by intros [= <- <-].
  - destruct (RateLimit.on_exec fl); [done|]. cbn.
    by destruct (RateLimit.redis_incr_expire _ _ _ _).
Qed.

(** X17.  When the exception filter handles a rejection of the rate-limit
    guard, the client gets status 429 and a body with [success: false],
    the status, the time, the path, the method and the guard's message --
    and nothing else: [limit], [current], [remainingRequests] and
    [nextValidRequestTime] of the exception are not passed on ([errors] is
    filled for status 400 only).  The rejection is logged as a warning;
    the exception has a stack, but the filter passes it to the logger for
    a status of 500 or more only, so the line carries none; and it carries
    the request body as it came -- the filter does not sanitize it. *)
Theorem rejection_as_sent_and_logged
    now fl hashedIp route opts g resp status stack now' request :
  fst (RateLimit.handleRateLimit now fl hashedIp route opts g)
    = Throw (RateLimit.HttpException resp status) →
  let exception := of_guard resp status stack in
  let '(sent_status, sent, line) := catch now' exception request in
  Filter.stack exception = Some stack ∧
  sent_status = 429 ∧
  sent = {| success := false;
            statusCode := 429;
            timestamp := now';
            path := url request;
            method' := method request;
            message' := VStr "Too many requests, please try again later.";
            errors := None |} ∧
  level line = LWarn ∧
  text line = "HTTP Exception: Too many requests, please try again later." ∧
  trace line = None ∧
  log_body (context line) = body request.
Proof.
  intros [-> Hm]%guard_exception. unfold catch, of_guard. cbn. by rewrite Hm.
Qed.

Lemma rejection_as_sent_and_logged_witness :
  let g := RateLimit.Guard
             {[ RateLimit.rate_limit_key "h" "POST:/auth/login" :=
                  RateLimit.REntry "3" (Some 60000) ]} [] in
  let request := Req "/auth/login" "POST" None (VObj [("password", VStr "hunter2")]) (VObj []) in
  let line :=
    (catch 1000
       (of_guard (RateLimit.Response 429 "Too many requests, please try again later."
                    3 3 0 60000)
                 429 "HttpException: Too many requests, please try again later.")
       request).2 in
  trace line = None ∧ log_body (context line) = VObj [("password", VStr "hunter2")].
Proof.
  intros g request line. subst line.
  pose proof (rejection_as_sent_and_logged 1000 RateLimit.healthy "h" "POST:/auth/login"
                (RateLimit.Options 3 60000) g
                (RateLimit.Response 429 "Too many requests, please try again later." 3 3 0 60000)
                429 "HttpException: Too many requests, please try again later."
                1000 request eq_refl) as H.
  cbv zeta in H.
  destruct (catch 1000 _ request) as [[st sent] line].
  destruct H as (_ & _ & _ & _ & _ & Ht & Hb). by split.
Defined.
End FilterProofs.
